(** * The watch machinery of the rollouts UI (ui/src/app/shared/utils/watch.ts)

    A shallow embedding of [fromEventSource], [handlePageVisibility],
    [useWatchList] and [useWatch], and the properties of the reconciliation
    reducer, of the retry layer, of the update buffer and of the
    page-visibility gate.

    Conventions.
    - An item (the type parameter [T]) is a JavaScript object: a finite map
      from property names to values, [gmap string V].  Property order is not
      modelled.
    - A change event (the type parameter [E extends WatchEvent]) is kept
      abstract; [type_of] reads its optional [type] property.
    - An array is a [list]; an array *object* is a cell of a store, so that
      two references to one array see each other's mutations.
    - Time is not modelled.  The expiry of each timer ([setInterval],
      [delay], [bufferTime], [debounceTime], [setTimeout], [timeout]) is an
      event of the machine, and a run is a list of such events in the order
      in which the event loop handles them. *)

From Stdlib Require Import ZArith.
From stdpp Require Import base option list gmap strings.

Local Open Scope Z_scope.

(** ** Array primitives used by the reducer *)

Module Arr.
Section arr.
Context {A : Type}.

(** [items.findIndex(p)]: index of the first element satisfying [p], or -1. *)
Fixpoint findIndex_from (k : Z) (p : A → bool) (items : list A) : Z :=
  match items with
  | [] => -1
  | x :: rest => if p x then k else findIndex_from (k + 1) p rest
  end.

Definition findIndex (p : A → bool) (items : list A) : Z :=
  findIndex_from 0 p items.

(** [items.splice(index, 1)] for an index that is not negative. *)
Definition splice1 (index : Z) (items : list A) : list A :=
  delete (Z.to_nat index) items.

(** [items[index] = x] for an index inside the array (the only way the
    reducer uses it: the index comes from [findIndex]). *)
Definition assign (index : Z) (x : A) (items : list A) : list A :=
  <[Z.to_nat index := x]> items.

(** [items.unshift(x)]. *)
Definition unshift (x : A) (items : list A) : list A := x :: items.

(** [items[index]], with [None] for [undefined]. *)
Definition at_index (index : Z) (items : list A) : option A :=
  items !! Z.to_nat index.

End arr.
End Arr.

(** ** The reconciliation reducer: the callback given to [scan] in
       [useWatchList] *)

Module Reducer.
Section reducer.
Context {V E : Type}.
Local Abbreviation item := (gmap string V).

(** The caller's inputs: [change.type], [findItem] and [getItem]. *)
Context (type_of : E → option string).
Context (findItem : item → E → bool).
Context (getItem : E → item).

(** [{...a, ...b}]: the properties of [a], overridden by those of [b]. *)
Definition spread (a b : item) : item := b ∪ a.

(** What one call of the callback does to the contents of [items]. *)
Definition reducer (items : list item) (change : E) : list item :=
  let index := Arr.findIndex (λ i, findItem i change) items in
  if decide (type_of change = Some "Deleted") then
    if decide (index > -1) then Arr.splice1 index items else items
  else if decide (type_of change = Some "Updated") then
    if decide (index > -1) then
      let updated :=
        spread (default ∅ (Arr.at_index index items)) (getItem change) in
      Arr.assign index updated items
    else items
  else
    if decide (index > -1) then Arr.assign index (getItem change) items
    else Arr.unshift (getItem change) items.

(** The fold that [scan] performs over the changes received so far. *)
Definition fold_events (init : list item) (changes : list E) : list item :=
  foldl reducer init changes.

(** The entries that the identity predicate matches to a change. *)
Definition matching (change : E) (items : list item) : list item :=
  filter (λ i, Is_true (findItem i change)) items.

Definition at_most_one_match (items : list item) : Prop :=
  ∀ change, (length (matching change items) ≤ 1)%nat.

(** No entry matches a change. *)
Definition absent (change : E) (items : list item) : Prop :=
  ∀ i, i ∈ items → findItem i change = false.

(** The first entry that matches a change, with its index. *)
Definition first_match (change : E) (items : list item) (n : nat)
    (old : item) : Prop :=
  items !! n = Some old ∧ findItem old change = true ∧
  ∀ m y, (m < n)%nat → items !! m = Some y → findItem y change = false.

(** Logical keys: [item_key] reads the key of an entry. *)
Definition with_key {K} `{EqDecision K} (item_key : item → K) (k : K)
    (items : list item) : list item :=
  filter (λ i, item_key i = k) items.

Definition unique_keys {K} `{EqDecision K} (item_key : item → K)
    (items : list item) : Prop :=
  ∀ k, (length (with_key item_key k items) ≤ 1)%nat.

End reducer.
End Reducer.

(** ** The store of array objects *)

Module Store.

(** A reference is the index of a cell; a cell holds an array's contents. *)
Abbreviation ref := nat.
Abbreviation store A := (list (list A)).

Section store.
Context {A : Type}.

Definition contents (h : store A) (r : ref) : list A := default [] (h !! r).

(** An array literal: a new cell. *)
Definition alloc (h : store A) (a : list A) : store A * ref :=
  (h ++ [a], length h).

(** A mutation of the array behind [r]. *)
Definition mutate (f : list A → list A) (r : ref) (h : store A) : store A :=
  alter f r h.

End store.
End Store.

(** ** [fromEventSource]: the event-source adapter *)

Module Adapter.

Inductive ReadyState := CONNECTING | OPEN | CLOSED | DONE.

Definition code (s : ReadyState) : Z :=
  match s with CONNECTING => 0 | OPEN => 1 | CLOSED => 2 | DONE => 4 end.

Section adapter.
Context {Ev : Type}.

(** The argument of [observer.error]: the transport's error event, or a
    message. *)
Inductive failure :=
| of_event (e : Ev)
| of_text (s : string).

(** A call made on the observer. *)
Inductive call :=
| next (data : string)
| error (e : failure).

(** What a handler gives back to the transport: nothing, or a function
    value.  A function value is described by the calls its body makes when
    it is invoked; building it makes none of them. *)
Inductive answer :=
| undefined
| closure (body : list call).

(** The outcome of invoking a handler: the observer calls it made, and its
    return value. *)
Record outcome := { made : list call; returned : answer }.

(** [eventSource.onmessage = (msg) => observer.next(msg.data)] *)
Definition onmessage (data : string) : outcome :=
  {| made := [next data]; returned := undefined |}.

(** [eventSource.onerror = (e) => () => { observer.error(e); }] *)
Definition onerror (e : Ev) : outcome :=
  {| made := []; returned := closure [error (of_event e)] |}.

(** The [setInterval] callback, given the transport's [readyState];
    [eventSource] is not null as long as the interval runs. *)
Definition interval (readyState : Z) : outcome :=
  {| made :=
       if decide (readyState = code CLOSED)
       then [error (of_text "connection got closed unexpectedly")]
       else [];
     returned := undefined |}.

(** What reaches one activation of the adapter. *)
Inductive signal :=
| on_message (data : string)
| on_error (e : Ev)
| on_interval (readyState : Z).

(** The transport and the timer invoke the handler and drop what it
    returns. *)
Definition react (s : signal) : list call :=
  match s with
  | on_message data => made (onmessage data)
  | on_error e => made (onerror e)
  | on_interval readyState => made (interval readyState)
  end.

End adapter.
Arguments failure : clear implicits.
Arguments call : clear implicits.
Arguments answer : clear implicits.
Arguments outcome : clear implicits.
Arguments signal : clear implicits.
End Adapter.

(** ** Decoding: [map((res) => JSON.parse(res).result as E)] *)

Module Decode.

(** The projection either throws ([JSON.parse] rejects the text, or the
    parsed value is [null]) or yields the [result] property, which is
    [None] when it is [undefined] or [null]. *)
Inductive decoded (E : Type) :=
| throws
| value (change : option E).
Arguments throws {E}.
Arguments value {E} change.

End Decode.

(** ** [useWatchList] *)

Module ListWatch.
Import Decode.
Section list_watch.
Context {V E Ev : Type}.
Local Abbreviation item := (gmap string V).
Context (type_of : E → option string).
Context (findItem : item → E → bool).
Context (getItem : E → item).
(** [JSON.parse(res).result], a function of the payload text. *)
Context (decode : string → decoded E).

(** The [scan] callback.  It reads [change.type], which throws on
    [undefined] and [null]; otherwise it mutates the array behind [items]
    and returns that same reference. *)
Definition scan_callback (h : Store.store item) (items : Store.ref)
    (change : option E) : option (Store.store item * Store.ref) :=
  match change with
  | None => None
  | Some c =>
      Some (Store.mutate (λ a, Reducer.reducer type_of findItem getItem a c)
              items h,
            items)
  end.

(** The upstream part of [watch]: an activation of the adapter is open, or
    [retryWhen] waits for [delay(500)] before it subscribes again. *)
Inductive upstream := connected | retrying.

(** One subscription to [watch]: the state of the operators of the pipe. *)
Record live := {
  source : upstream;
  acc : Store.ref;            (* the accumulator held by [scan] *)
  buffer : list Store.ref;    (* the open buffer of [bufferTime] *)
}.

(** The state of one run of the effect, with the React state it sets. *)
Record hook := {
  heap : Store.store item;
  seed : Store.ref;             (* the value of [init || []] *)
  subscription : option live;   (* [subscription] of [handlePageVisibility] *)
  listening : bool;             (* the outer subscriber is still open *)
  items : list item;
  error : bool;
  loading : bool;
  loader : bool;                (* the [setTimeout] of the effect is pending *)
  opened : nat;                 (* [EventSource] objects built so far *)
  renders : list (list item);   (* the arguments of [setItems], oldest first *)
}.

Definition with_subscription (s : option live) (st : hook) : hook :=
  {| heap := heap st; seed := seed st; subscription := s;
     listening := listening st; items := items st; error := error st;
     loading := loading st; loader := loader st; opened := opened st;
     renders := renders st |}.

Definition with_heap (h : Store.store item) (st : hook) : hook :=
  {| heap := h; seed := seed st; subscription := subscription st;
     listening := listening st; items := items st; error := error st;
     loading := loading st; loader := loader st; opened := opened st;
     renders := renders st |}.

(** [ensureUnsubscribed]. *)
Definition ensureUnsubscribed (st : hook) : hook :=
  with_subscription None st.

(** [start] of [handlePageVisibility]: [ensureUnsubscribed()], then
    [src().subscribe(...)], where [src()] is the one [watch]; [scan] starts
    from its seed, the adapter opens a connection. *)
Definition start (st : hook) : hook :=
  let st := ensureUnsubscribed st in
  {| heap := heap st; seed := seed st;
     subscription :=
       Some {| source := connected; acc := seed st; buffer := [] |};
     listening := listening st; items := items st; error := error st;
     loading := loading st; loader := loader st; opened := S (opened st);
     renders := renders st |}.

(** The body of the effect.  [init] is the caller's array, if any; an array
    is truthy, so [init || []] is [init] whenever it is given. *)
Definition mount (h : Store.store item) (init : option Store.ref)
    (hidden : bool) : hook :=
  let '(h', r) :=
    match init with
    | Some r => (h, r)
    | None => Store.alloc h []
    end in
  let st :=
    {| heap := h'; seed := r; subscription := None; listening := true;
       items := []; error := false; loading := true; loader := true;
       opened := 0; renders := [] |} in
  if hidden then st else start st.

(** [(l) => setItems([...l])]: the consumer copies the array it is given. *)
Definition setItems_copy (l : Store.ref) (st : hook) : hook :=
  let copy := Store.contents (heap st) l in
  {| heap := heap st; seed := seed st; subscription := subscription st;
     listening := listening st; items := copy; error := error st;
     loading := loading st; loader := loader st; opened := opened st;
     renders := renders st ++ [copy] |}.

(** An error that reaches the subscriber of [handlePageVisibility]:
    [() => setError(true)], after which the subscriber closes and the
    teardown of the gate runs. *)
Definition fail (st : hook) : hook :=
  {| heap := heap st; seed := seed st; subscription := None;
     listening := false; items := items st; error := true;
     loading := loading st; loader := loader st; opened := opened st;
     renders := renders st |}.

(** An error that reaches [retryWhen]: the activation is dropped, and a new
    one follows the delay. *)
Definition retry (s : live) (st : hook) : hook :=
  with_subscription
    (Some {| source := retrying; acc := acc s; buffer := buffer s |}) st.

(** A value that reaches [scan], and from there [bufferTime]. *)
Definition scan_next (s : live) (change : option E) (st : hook) : hook :=
  match scan_callback (heap st) (acc s) change with
  | None => fail st
  | Some (h', r) =>
      with_subscription
        (Some {| source := source s; acc := r; buffer := buffer s ++ [r] |})
        (with_heap h' st)
  end.

(** A call of the adapter on its observer, the [map] subscriber.  [map]
    turns an exception of the projection into an error; [repeat] passes
    values and errors on; [retryWhen] takes every error of its source. *)
Definition observe (c : Adapter.call Ev) (st : hook) : hook :=
  match subscription st with
  | Some s =>
      match source s with
      | connected =>
          match c with
          | Adapter.error _ => retry s st
          | Adapter.next data =>
              match decode data with
              | throws => retry s st
              | value change => scan_next s change st
              end
          end
      | retrying => st
      end
  | None => st
  end.

(** The buffer closes: [mergeMap((l) => l)] hands its entries on, one by
    one, and a new buffer opens. *)
Definition flush (st : hook) : hook :=
  match subscription st with
  | Some s =>
      foldl (λ st' l, setItems_copy l st')
        (with_subscription
           (Some {| source := source s; acc := acc s; buffer := [] |}) st)
        (buffer s)
  | None => st
  end.

(** The events of a run. *)
Inductive event :=
| transport (s : Adapter.signal Ev)   (* a callback of the open connection *)
| retry_due                           (* [delay(500)] of [retryWhen] *)
| buffer_due                          (* the interval of [bufferTime] *)
| visibilitychange (hidden : bool)    (* debounced, with [document.hidden] *)
| loader_due                          (* [setTimeout(…, BUFFER_TIME + 10)] *)
| cleanup.                            (* the function the effect returns *)

Definition step (st : hook) (ev : event) : hook :=
  match ev with
  | transport s => foldl (λ st' c, observe c st') st (Adapter.react s)
  | retry_due =>
      match subscription st with
      | Some s =>
          match source s with
          | retrying =>
              {| heap := heap st; seed := seed st;
                 subscription :=
                   Some {| source := connected; acc := acc s;
                           buffer := buffer s |};
                 listening := listening st; items := items st;
                 error := error st; loading := loading st;
                 loader := loader st; opened := S (opened st);
                 renders := renders st |}
          | connected => st
          end
      | None => st
      end
  | buffer_due => flush st
  | visibilitychange hidden =>
      if listening st then
        match hidden, subscription st with
        | true, Some _ => ensureUnsubscribed st
        | false, None => start st
        | _, _ => st
        end
      else st
  | loader_due =>
      if loader st then
        {| heap := heap st; seed := seed st;
           subscription := subscription st; listening := listening st;
           items := items st; error := error st; loading := false;
           loader := false; opened := opened st; renders := renders st |}
      else st
  | cleanup =>
      {| heap := heap st; seed := seed st; subscription := None;
         listening := false; items := items st; error := error st;
         loading := loading st; loader := false; opened := opened st;
         renders := renders st |}
  end.

Definition run (st : hook) (evs : list event) : hook := foldl step st evs.

(** The contents of the array the fold works on, when a subscription is
    live. *)
Definition fold_state (st : hook) : option (list item) :=
  (λ s, Store.contents (heap st) (acc s)) <$> subscription st.

(** The accumulator of [scan] and every entry of the buffer are the one
    reference that the effect computed as [init || []]. *)
Definition aliased (st : hook) : Prop :=
  ∀ s, subscription st = Some s →
    acc s = seed st ∧ Forall (λ l, l = seed st) (buffer s).

(** A burst of messages, and the changes they decode to. *)
Definition messages (datas : list string) : list event :=
  (λ data, transport (Adapter.on_message data)) <$> datas.

Definition decodes (datas : list string) (changes : list E) : Prop :=
  Forall2 (λ data change, decode data = value (Some change)) datas changes.

(** The effect runs again when [init], [url], [findItem] or [getItem]
    changes: the function it returned runs, then its body, with a new
    [setTimeout]; the state of [React.useState] stays. *)
Definition rerun (st : hook) (init : option Store.ref) (hidden : bool)
    : hook :=
  let st := step st cleanup in
  let '(h', r) :=
    match init with
    | Some r => (heap st, r)
    | None => Store.alloc (heap st) []
    end in
  let st' :=
    {| heap := h'; seed := r; subscription := None; listening := true;
       items := items st; error := error st; loading := loading st;
       loader := true; opened := opened st; renders := renders st |} in
  if hidden then st' else start st'.

(** The [setTimeout] of the effect fires before the effect is cleaned up. *)
Fixpoint loader_fires (evs : list event) : bool :=
  match evs with
  | [] => false
  | loader_due :: _ => true
  | cleanup :: _ => false
  | _ :: rest => loader_fires rest
  end.

(** Two states show the same to the consumer; two states have the same
    loading flag and loader timer. *)
Definition same_screen (st st' : hook) : Prop :=
  items st' = items st ∧ renders st' = renders st.

Definition same_timer (st st' : hook) : Prop :=
  loading st' = loading st ∧ loader st' = loader st.

(** An event that is not a message whose [result] is missing. *)
Definition has_result (ev : event) : Prop :=
  match ev with
  | transport (Adapter.on_message data) => decode data ≠ value None
  | _ => True
  end.

(** An event that does not show the page. *)
Definition keeps_hidden (ev : event) : Prop :=
  match ev with
  | visibilitychange false => False
  | _ => True
  end.

(** An event that is not the end of a buffer window. *)
Definition keeps_buffer (ev : event) : Prop :=
  match ev with
  | buffer_due => False
  | _ => True
  end.

End list_watch.
End ListWatch.

(** ** [useWatch] *)

Module ScalarWatch.
Import Decode.
Section scalar_watch.
Context {V Ev : Type}.
Local Abbreviation T := (gmap string V).
(** [JSON.parse(res).result], a function of the payload text. *)
Context (decode : string → decoded T).

Inductive upstream := connected | retrying.

(** One subscription to the live stream.  A value is [None] when it is
    [undefined] or [null]. *)
Record live := {
  source : upstream;
  acc : option T;             (* the accumulator held by [scan] *)
  buffer : list (option T);   (* the open buffer of [bufferTime] *)
}.

Record hook := {
  item : option T;
  subscription : option live;   (* [subscription] of [handlePageVisibility] *)
  listening : bool;             (* the subscriber of [liveStream] is open *)
  timer : bool;                 (* [timeout(timeoutAfter)] is in the pipe *)
  opened : list string;         (* the URLs of the [EventSource]s built *)
}.

(** The state before the effect has run: [React.useState({} as T)]. *)
Definition idle : hook :=
  {| item := Some ∅; subscription := None; listening := false;
     timer := false; opened := [] |}.

Definition with_subscription (s : option live) (st : hook) : hook :=
  {| item := item st; subscription := s; listening := listening st;
     timer := timer st; opened := opened st |}.

(** [start] of [handlePageVisibility]; [scan] starts from [{}]. *)
Definition start (url : string) (st : hook) : hook :=
  {| item := item st;
     subscription :=
       Some {| source := connected; acc := Some ∅; buffer := [] |};
     listening := listening st; timer := timer st;
     opened := opened st ++ [url] |}.

(** The body of the effect. *)
Definition mount (url : string) (subscribe : bool) (timeoutAfter : option Z)
    (hidden : bool) : hook :=
  if negb subscribe then idle
  else
    let st :=
      {| item := Some ∅; subscription := None; listening := true;
         timer :=
           match timeoutAfter with
           | Some t => bool_decide (t > 0)
           | None => false
           end;
         opened := [] |} in
    if hidden then st else start url st.

(** A call of the adapter on its observer: [map], [repeat], [retryWhen],
    then [scan((item, update) => update)] and [bufferTime]. *)
Definition observe (c : Adapter.call Ev) (st : hook) : hook :=
  match subscription st with
  | Some s =>
      match source s with
      | connected =>
          let retry :=
            with_subscription
              (Some {| source := retrying; acc := acc s;
                       buffer := buffer s |}) st in
          match c with
          | Adapter.error _ => retry
          | Adapter.next data =>
              match decode data with
              | throws => retry
              | value update =>
                  with_subscription
                    (Some {| source := connected; acc := update;
                             buffer := buffer s ++ [update] |}) st
              end
          end
      | retrying => st
      end
  | None => st
  end.

(** [(i) => setItem(i)] *)
Definition setItem (i : option T) (st : hook) : hook :=
  {| item := i; subscription := subscription st; listening := listening st;
     timer := timer st; opened := opened st |}.

Definition flush (st : hook) : hook :=
  match subscription st with
  | Some s =>
      foldl (λ st' i, setItem i st')
        (with_subscription
           (Some {| source := source s; acc := acc s; buffer := [] |}) st)
        (buffer s)
  | None => st
  end.

(** The subscriber has no error callback: the subscription ends. *)
Definition teardown (st : hook) : hook :=
  {| item := item st; subscription := None; listening := false;
     timer := timer st; opened := opened st |}.

Inductive event :=
| transport (s : Adapter.signal Ev)
| retry_due
| buffer_due
| visibilitychange (hidden : bool)
| timeout_due                         (* the timer of [timeout] *)
| cleanup.

Definition step (url : string) (st : hook) (ev : event) : hook :=
  match ev with
  | transport s => foldl (λ st' c, observe c st') st (Adapter.react s)
  | retry_due =>
      match subscription st with
      | Some s =>
          match source s with
          | retrying =>
              {| item := item st;
                 subscription :=
                   Some {| source := connected; acc := acc s;
                           buffer := buffer s |};
                 listening := listening st; timer := timer st;
                 opened := opened st ++ [url] |}
          | connected => st
          end
      | None => st
      end
  | buffer_due => flush st
  | visibilitychange hidden =>
      if listening st then
        match hidden, subscription st with
        | true, Some _ => with_subscription None st
        | false, None => start url st
        | _, _ => st
        end
      else st
  | timeout_due =>
      if listening st && timer st then teardown st else st
  | cleanup => teardown st
  end.

Definition run (url : string) (st : hook) (evs : list event) : hook :=
  foldl (step url) st evs.

(** A burst of messages, and the values they decode to. *)
Definition messages (datas : list string) : list event :=
  (λ data, transport (Adapter.on_message data)) <$> datas.

Definition decodes (datas : list string) (updates : list (option T))
    : Prop :=
  Forall2 (λ data update, decode data = value update) datas updates.

(** An event that is neither the timer of [timeout] nor the cleanup. *)
Definition keeps_open (ev : event) : Prop :=
  match ev with
  | timeout_due | cleanup => False
  | _ => True
  end.

End scalar_watch.
End ScalarWatch.

(** ** The menu (shared/components/menu) *)

Module Menu.

(** Where a click lands: inside the element behind [ref] (the children that
    open the menu), on the entry of the menu with a given index, or
    anywhere else in the document. *)
Inductive target :=
| on_trigger
| on_item (i : nat)
| elsewhere.

Record menu := {
  menuVisible : bool;
  listeners : nat;      (* the [click] listeners added to [document] *)
  ran : list nat;       (* the entries whose [action] ran, oldest first *)
}.

(** The listener of the effect:
    [if (ref.current && !ref.current.contains(e.target))
       setMenuVisible(false)]; [ref.current] is set while the menu is
    mounted. *)
Definition listener (t : target) (st : menu) : menu :=
  match t with
  | on_trigger => st
  | _ =>
      {| menuVisible := false; listeners := listeners st; ran := ran st |}
  end.

(** The [onClick] handlers of the elements. *)
Definition onClick (t : target) (st : menu) : menu :=
  match t with
  | on_trigger =>
      {| menuVisible := true; listeners := listeners st; ran := ran st |}
  | on_item i =>
      {| menuVisible := menuVisible st; listeners := listeners st;
         ran := ran st ++ [i] |}
  | elsewhere => st
  end.

Inductive event :=
| render              (* a render commits and the effect runs *)
| click (t : target).

(** The state after the first render and its effect. *)
Definition mounted : menu :=
  {| menuVisible := false; listeners := 1; ran := [] |}.

Definition step (st : menu) (ev : event) : menu :=
  match ev with
  | render =>
      {| menuVisible := menuVisible st; listeners := S (listeners st);
         ran := ran st |}
  | click t =>
      Nat.iter (listeners st) (listener t) (onClick t st)
  end.

Definition run (st : menu) (evs : list event) : menu := foldl step st evs.

(** The target of the last click of a run, if any. *)
Fixpoint last_click (evs : list event) : option target :=
  match evs with
  | [] => None
  | ev :: rest =>
      match last_click rest with
      | Some t => Some t
      | None => match ev with click t => Some t | render => None end
      end
  end.

End Menu.

(** ** A caller: items and changes with string properties, keyed by [id] *)

Module Caller.
Import Decode.

Abbreviation item := (gmap string string).
Abbreviation change := (gmap string string).

Definition type_of (c : change) : option string := c !! "type".

(** [(item, change) => item.id === change.id] *)
Definition findItem (i : item) (c : change) : bool :=
  bool_decide (i !! "id" = c !! "id").

(** The change without its [type]. *)
Definition getItem (c : change) : item := delete "type" c.

(** The logical key of an item and of a change. *)
Definition item_key (i : item) : option string := i !! "id".
Definition change_key (c : change) : option string := c !! "id".

Definition record (id name : string) : item :=
  {[ "id" := id; "name" := name ]}.

Definition Added (id name : string) : change :=
  {[ "type" := "Added"; "id" := id; "name" := name ]}.
Definition Updated (id name : string) : change :=
  {[ "type" := "Updated"; "id" := id; "name" := name ]}.
Definition Deleted (id : string) : change :=
  {[ "type" := "Deleted"; "id" := id ]}.

(** JSON text *)
Definition dq : string := String (Ascii.ascii_of_nat 34) EmptyString.
Definition quoted (s : string) : string := dq +:+ s +:+ dq.
Definition member (k v : string) : string := quoted k +:+ ":" +:+ v.

Definition added_text (id name : string) : string :=
  "{" +:+ member "result"
    ("{" +:+ member "type" (quoted "Added") +:+ ","
         +:+ member "id" (quoted id) +:+ ","
         +:+ member "name" (quoted name) +:+ "}") +:+ "}".

Definition deleted_text (id : string) : string :=
  "{" +:+ member "result"
    ("{" +:+ member "type" (quoted "Deleted") +:+ ","
         +:+ member "id" (quoted id) +:+ "}") +:+ "}".

(** A reply that is not JSON, and a JSON document without [result]. *)
Definition gateway_text : string := "<html>502 Bad Gateway</html>".
Definition empty_text : string := "{}".

(** [JSON.parse(res).result] on the payloads used below. *)
Definition decode (data : string) : decoded change :=
  if decide (data = added_text "1" "a") then value (Some (Added "1" "a"))
  else if decide (data = added_text "2" "b") then value (Some (Added "2" "b"))
  else if decide (data = deleted_text "1") then value (Some (Deleted "1"))
  else if decide (data = empty_text) then value None
  else throws.

Definition scalar_decode (data : string) : decoded item :=
  if decide (data = added_text "1" "a")
  then value (Some (Added "1" "a"))
  else if decide (data = empty_text) then value None
  else throws.

(** The list watch of this caller; the error events carry nothing. *)
Definition reducer : list item → change → list item :=
  Reducer.reducer type_of findItem getItem.
Definition fold_events : list item → list change → list item :=
  Reducer.fold_events type_of findItem getItem.
Definition list_step : ListWatch.hook → ListWatch.event → ListWatch.hook :=
  ListWatch.step (Ev := unit) type_of findItem getItem decode.
Definition list_run :
    ListWatch.hook → list ListWatch.event → ListWatch.hook :=
  ListWatch.run (Ev := unit) type_of findItem getItem decode.
Definition message (data : string) : ListWatch.event (Ev := unit) :=
  ListWatch.transport (Adapter.on_message data).

(** A watch without [init] on a visible page, and a watch whose caller
    passes an empty array, the array of cell 0. *)
Definition watch_without_init : ListWatch.hook (V := string) :=
  ListWatch.mount [] None false.
Definition watch_with_init : ListWatch.hook (V := string) :=
  ListWatch.mount [[]] (Some 0%nat) false.

(** The subscription that [start] creates in both. *)
Definition started : ListWatch.live :=
  {| ListWatch.source := ListWatch.connected; ListWatch.acc := 0%nat;
     ListWatch.buffer := [] |}.

(** Another caller, whose changes name the entry in [id] and the key it
    gets in [to]: [(change) => ({id: change.to, name: change.name})].  The
    item it takes from a change does not carry the key that [findItem]
    compares. *)
Definition getItem_to (c : change) : item :=
  {[ "id" := default "" (c !! "to"); "name" := default "" (c !! "name") ]}.

Definition Moved (id to name : string) : change :=
  {[ "type" := "Moved"; "id" := id; "to" := to; "name" := name ]}.

(** The single-item watch of this caller. *)
Definition scalar_run (url : string) :
    ScalarWatch.hook → list ScalarWatch.event → ScalarWatch.hook :=
  ScalarWatch.run (Ev := unit) scalar_decode url.

End Caller.

(** * Properties *)

(** ** [findIndex] *)

Module ArrFacts.
Section arr_facts.
Context {A : Type}.
Implicit Types (p : A → bool) (items : list A).

Lemma findIndex_from_absent k p items :
  (∀ x, x ∈ items → p x = false) → Arr.findIndex_from k p items = -1.
Proof.
  revert k. induction items as [|x rest IH]; intros k Hno; simpl; [done|].
  rewrite (Hno x) by left. apply IH. intros y Hy. apply Hno. by right.
Qed.

Lemma findIndex_from_first k p items n x :
  items !! n = Some x → p x = true →
  (∀ m y, (m < n)%nat → items !! m = Some y → p y = false) →
  Arr.findIndex_from k p items = k + Z.of_nat n.
Proof.
  revert k n. induction items as [|a rest IH]; intros k n Hn Hp Hbefore.
  - by rewrite lookup_nil in Hn.
  - destruct n as [|n]; simpl in *.
    + injection Hn as ->. rewrite Hp. lia.
    + rewrite (Hbefore 0%nat a) by (done || lia).
      rewrite (IH (k + 1) n); [lia|done..|].
      intros m y Hm Hy. apply (Hbefore (S m) y); [lia|done].
Qed.

Lemma findIndex_absent p items :
  (∀ x, x ∈ items → p x = false) → Arr.findIndex p items = -1.
Proof. apply findIndex_from_absent. Qed.

Lemma findIndex_first p items n x :
  items !! n = Some x → p x = true →
  (∀ m y, (m < n)%nat → items !! m = Some y → p y = false) →
  Arr.findIndex p items = Z.of_nat n.
Proof.
  intros Hn Hp Hbefore. unfold Arr.findIndex.
  by rewrite (findIndex_from_first 0 p items n x).
Qed.

(** A list with a match has a first match. *)
Lemma first_exists p items :
  (∃ x, x ∈ items ∧ p x = true) →
  ∃ n x, items !! n = Some x ∧ p x = true ∧
    ∀ m y, (m < n)%nat → items !! m = Some y → p y = false.
Proof.
  induction items as [|a rest IH]; intros (x & Hx & Hp).
  - by apply elem_of_nil in Hx.
  - destruct (p a) eqn:Ha.
    + exists 0%nat, a. repeat split; [done|]. intros m y Hm. lia.
    + apply elem_of_cons in Hx as [->|Hx]; [congruence|].
      destruct IH as (n & y & Hn & Hy & Hbefore); [by exists x|].
      exists (S n), y. repeat split; [done..|].
      intros [|m] z Hm Hz; simpl in Hz; [by injection Hz as <-|].
      apply (Hbefore m z); [lia|done].
Qed.

End arr_facts.
End ArrFacts.

(** ** One step of the reducer, case by case *)

Module ReducerFacts.
Import Reducer.
Section reducer_facts.
Context {V E : Type}.
Local Abbreviation item := (gmap string V).
Context (type_of : E → option string).
Context (findItem : item → E → bool).
Context (getItem : E → item).
Local Abbreviation reducer := (Reducer.reducer type_of findItem getItem).
Local Abbreviation first_match := (Reducer.first_match findItem).
Local Abbreviation absent := (Reducer.absent findItem).
Implicit Types (items : list item) (change : E).

Lemma index_absent change items :
  absent change items →
  Arr.findIndex (λ i, findItem i change) items = -1.
Proof. intros Hno. by apply ArrFacts.findIndex_absent. Qed.

Lemma index_first change items n old :
  first_match change items n old →
  Arr.findIndex (λ i, findItem i change) items = Z.of_nat n.
Proof.
  intros (Hn & Hold & Hbefore).
  by apply (ArrFacts.findIndex_first _ items n old).
Qed.

Lemma absent_or_first change items :
  absent change items ∨ ∃ n old, first_match change items n old.
Proof.
  destruct (decide (Exists (λ i, findItem i change = true) items))
    as [Hex|Hno].
  - right. apply Exists_exists in Hex.
    destruct (ArrFacts.first_exists (λ i, findItem i change) items Hex)
      as (n & old & ?). by exists n, old.
  - left. intros i Hi. destruct (findItem i change) eqn:Hf; [|done].
    destruct Hno. apply Exists_exists. by exists i.
Qed.

Ltac by_type Hty :=
  unfold Reducer.reducer; rewrite ?Hty;
  repeat (case_decide; try congruence; try lia).

Lemma deleted_absent change items :
  type_of change = Some "Deleted" → absent change items →
  reducer items change = items.
Proof.
  intros Hty Hno. unfold Reducer.reducer.
  rewrite (index_absent _ _ Hno). by_type Hty.
Qed.

Lemma deleted_first change items n old :
  type_of change = Some "Deleted" → first_match change items n old →
  reducer items change = delete n items.
Proof.
  intros Hty Hfirst. unfold Reducer.reducer.
  rewrite (index_first _ _ _ _ Hfirst). by_type Hty.
  unfold Arr.splice1. by rewrite Nat2Z.id.
Qed.

Lemma updated_absent change items :
  type_of change = Some "Updated" → absent change items →
  reducer items change = items.
Proof.
  intros Hty Hno. unfold Reducer.reducer.
  rewrite (index_absent _ _ Hno). by_type Hty.
Qed.

Lemma updated_first change items n old :
  type_of change = Some "Updated" → first_match change items n old →
  reducer items change = <[n := spread old (getItem change)]> items.
Proof.
  intros Hty Hfirst. unfold Reducer.reducer.
  rewrite (index_first _ _ _ _ Hfirst). by_type Hty.
  unfold Arr.assign, Arr.at_index. rewrite Nat2Z.id.
  destruct Hfirst as (-> & _). done.
Qed.

Lemma other_absent change items :
  type_of change ≠ Some "Deleted" → type_of change ≠ Some "Updated" →
  absent change items →
  reducer items change = getItem change :: items.
Proof.
  intros Hd Hu Hno. unfold Reducer.reducer.
  rewrite (index_absent _ _ Hno).
  repeat (case_decide; try congruence; try lia). done.
Qed.

Lemma other_first change items n old :
  type_of change ≠ Some "Deleted" → type_of change ≠ Some "Updated" →
  first_match change items n old →
  reducer items change = <[n := getItem change]> items.
Proof.
  intros Hd Hu Hfirst. unfold Reducer.reducer.
  rewrite (index_first _ _ _ _ Hfirst).
  repeat (case_decide; try congruence; try lia).
  unfold Arr.assign. by rewrite Nat2Z.id.
Qed.

(** [{...a, ...b}], property by property: [b] wins. *)
Lemma spread_lookup (a b : item) k :
  spread a b !! k = match b !! k with Some v => Some v | None => a !! k end.
Proof.
  unfold spread. rewrite lookup_union.
  by destruct (b !! k), (a !! k).
Qed.

(** [C4] A [Deleted] change that matches no entry leaves the collection as
    it is, so that a second such step changes nothing either: deleting is
    idempotent on repeated or late deletes. *)
Theorem deleted_unknown_is_noop change items :
  type_of change = Some "Deleted" →
  (∀ i, i ∈ items → findItem i change = false) →
  reducer items change = items ∧
  reducer (reducer items change) change = reducer items change.
Proof.
  intros Hty Hno.
  assert (reducer items change = items) as Hstep
    by by apply deleted_absent.
  split; [done|]. by rewrite !Hstep.
Qed.

(** [C5] An [Updated] change: when an entry matches, the first such entry
    is replaced, at its own position, by the shallow merge of the entry and
    of the fields taken from the change, in which the fields of the change
    win; the other positions and the length stay.  When no entry matches,
    the collection is left as it is. *)
Theorem updated_merges_in_place change items :
  type_of change = Some "Updated" →
  ((∃ i, i ∈ items ∧ findItem i change = true) →
   ∃ n old, first_match change items n old ∧
     let merged := spread old (getItem change) in
     reducer items change = <[n := merged]> items ∧
     reducer items change !! n = Some merged ∧
     (∀ m, m ≠ n → reducer items change !! m = items !! m) ∧
     length (reducer items change) = length items ∧
     ∀ k, merged !! k =
          match getItem change !! k with
          | Some v => Some v
          | None => old !! k
          end) ∧
  ((∀ i, i ∈ items → findItem i change = false) →
   reducer items change = items).
Proof.
  intros Hty. split.
  - intros Hex.
    destruct (ArrFacts.first_exists (λ i, findItem i change) items Hex)
      as (n & old & Hn & Hold & Hbefore).
    assert (first_match change items n old) as Hfirst by done.
    exists n, old. split; [done|]. simpl.
    rewrite (updated_first _ _ _ _ Hty Hfirst).
    split_and!.
    + done.
    + apply list_lookup_insert_eq. by eapply lookup_lt_Some.
    + intros m Hm. by apply list_lookup_insert_ne.
    + apply length_insert.
    + intros k. apply spread_lookup.
  - intros Hno. by apply updated_absent.
Qed.

(** [C6] A change whose type is neither [Deleted] nor [Updated] (the type
    may be missing): when an entry matches, the first such entry is
    replaced in place by the item taken from the change, the length and the
    other positions stay; when no entry matches, that item is put in
    front of the collection, which grows by exactly one entry. *)
Theorem other_replaces_or_prepends change items :
  type_of change ≠ Some "Deleted" →
  type_of change ≠ Some "Updated" →
  ((∃ i, i ∈ items ∧ findItem i change = true) →
   ∃ n old, first_match change items n old ∧
     reducer items change = <[n := getItem change]> items ∧
     reducer items change !! n = Some (getItem change) ∧
     (∀ m, m ≠ n → reducer items change !! m = items !! m) ∧
     length (reducer items change) = length items) ∧
  ((∀ i, i ∈ items → findItem i change = false) →
   reducer items change = getItem change :: items ∧
   length (reducer items change) = S (length items)).
Proof.
  intros Hd Hu. split.
  - intros Hex.
    destruct (ArrFacts.first_exists (λ i, findItem i change) items Hex)
      as (n & old & Hn & Hold & Hbefore).
    assert (first_match change items n old) as Hfirst by done.
    exists n, old. split; [done|].
    rewrite (other_first _ _ _ _ Hd Hu Hfirst).
    split_and!.
    + done.
    + apply list_lookup_insert_eq. by eapply lookup_lt_Some.
    + intros m Hm. by apply list_lookup_insert_ne.
    + apply length_insert.
  - intros Hno. by rewrite (other_absent _ _ Hd Hu Hno).
Qed.

(** *** Logical keys *)

Section keyed.
Context {K : Type} `{EqDecision K}.
Context (item_key : item → K) (change_key : E → K).
Local Abbreviation unique_keys := (Reducer.unique_keys item_key).

(** The identity predicate compares the key of the entry with the key of
    the change; the item taken from a change carries the key of the change;
    merging two objects of one key gives an object of that key. *)
Hypothesis findItem_key :
  ∀ i change, findItem i change = true ↔ item_key i = change_key change.
Hypothesis getItem_key :
  ∀ change, item_key (getItem change) = change_key change.
Hypothesis spread_key :
  ∀ a b, item_key a = item_key b → item_key (spread a b) = item_key b.

Lemma with_key_nil_iff k items :
  with_key item_key k items = [] ↔ k ∉ item_key <$> items.
Proof.
  unfold with_key. induction items as [|x rest IH]; simpl.
  - split; [intros _; apply not_elem_of_nil|done].
  - rewrite filter_cons, not_elem_of_cons. case_decide as Hk.
    + split; [done|]. by intros [? _].
    + rewrite IH. split; [by split|by intros [_ ?]].
Qed.

Lemma unique_keys_NoDup items :
  unique_keys items ↔ NoDup (item_key <$> items).
Proof.
  unfold Reducer.unique_keys, with_key.
  induction items as [|x rest IH]; simpl.
  - split; [intros _; constructor|]. intros _ k. simpl. lia.
  - rewrite NoDup_cons, <-IH. split.
    + intros Hone. split.
      * apply with_key_nil_iff. specialize (Hone (item_key x)).
        rewrite filter_cons, decide_True in Hone by done.
        unfold with_key. destruct (filter _ rest); [done|simpl in Hone; lia].
      * intros k. specialize (Hone k). rewrite filter_cons in Hone.
        case_decide; simpl in Hone; lia.
    + intros [Hfresh Hone] k. rewrite filter_cons. case_decide as Hk.
      * subst k. apply with_key_nil_iff in Hfresh. unfold with_key in Hfresh.
        rewrite Hfresh. simpl. lia.
      * apply Hone.
Qed.

Lemma matching_with_key change items :
  matching findItem change items = with_key item_key (change_key change) items.
Proof.
  unfold matching, with_key. apply list_filter_iff. intros i.
  rewrite <-findItem_key. apply Is_true_true.
Qed.

Lemma unique_keys_one_match items :
  unique_keys items → at_most_one_match findItem items.
Proof. intros Hone change. rewrite matching_with_key. apply Hone. Qed.

Lemma first_match_key change items n old :
  first_match change items n old → item_key old = change_key change.
Proof. intros (_ & Hold & _). by apply findItem_key. Qed.

Lemma absent_key change items :
  absent change items → change_key change ∉ item_key <$> items.
Proof.
  intros Hno (i & Hk & Hi)%list_elem_of_fmap.
  symmetry in Hk. apply findItem_key in Hk. rewrite (Hno i Hi) in Hk. done.
Qed.

(** Writing, at the place of an entry, an entry of the same key. *)
Lemma keys_assign_same items n old new :
  items !! n = Some old → item_key new = item_key old →
  item_key <$> <[n := new]> items = item_key <$> items.
Proof.
  intros Hn Hk. rewrite list_fmap_insert. apply list_insert_id.
  by rewrite list_lookup_fmap, Hn, Hk.
Qed.

Lemma reducer_keeps_NoDup items change :
  NoDup (item_key <$> items) → NoDup (item_key <$> reducer items change).
Proof.
  intros Hnd.
  destruct (absent_or_first change items)
    as [Hno|(n & old & Hfirst)];
    destruct (decide (type_of change = Some "Deleted")) as [Hd|Hd];
    destruct (decide (type_of change = Some "Updated")) as [Hu|Hu].
  - by rewrite deleted_absent.
  - by rewrite deleted_absent.
  - by rewrite updated_absent.
  - rewrite other_absent by done. rewrite fmap_cons.
    apply NoDup_cons. split; [|done].
    rewrite getItem_key. by apply absent_key.
  - rewrite (deleted_first _ _ n old) by done. rewrite list_fmap_delete.
    eapply sublist_NoDup; [done|apply sublist_delete].
  - rewrite (deleted_first _ _ n old) by done. rewrite list_fmap_delete.
    eapply sublist_NoDup; [done|apply sublist_delete].
  - rewrite (updated_first _ _ n old) by done.
    rewrite (keys_assign_same _ _ old); [done|apply Hfirst|].
    pose proof (first_match_key _ _ _ _ Hfirst) as Hk.
    rewrite spread_key; rewrite getItem_key; done.
  - rewrite (other_first _ _ n old) by done.
    rewrite (keys_assign_same _ _ old); [done|apply Hfirst|].
    rewrite getItem_key. symmetry. by eapply first_match_key.
Qed.

Lemma fold_keeps_NoDup changes init :
  NoDup (item_key <$> init) →
  NoDup (item_key <$> fold_events type_of findItem getItem init changes).
Proof.
  revert init. induction changes as [|change rest IH]; intros init Hnd.
  - done.
  - simpl. apply IH. by apply reducer_keeps_NoDup.
Qed.

(** [C7] When the identity predicate compares logical keys and the item
    taken from a change carries the key of the change: starting from a
    collection with at most one entry per key, the collection has, after
    every step of the fold, at most one entry per key, and so at most one
    entry that the identity predicate matches to any change. *)
Theorem fold_keeps_one_entry_per_key init changes :
  unique_keys init →
  ∀ n,
    let snapshot :=
      fold_events type_of findItem getItem init (take n changes) in
    unique_keys snapshot ∧ at_most_one_match findItem snapshot.
Proof.
  intros Hinit n snapshot.
  assert (unique_keys snapshot) as Hone.
  { apply unique_keys_NoDup, fold_keeps_NoDup. by apply unique_keys_NoDup. }
  split; [done|]. by apply unique_keys_one_match.
Qed.

End keyed.
End reducer_facts.
End ReducerFacts.

(** ** The event-source adapter *)

Module AdapterFacts.
Import Adapter.

(** [C1] The handler installed as [onerror] builds a function and hands it
    back to the transport, which drops it: for every error event [e] the
    adapter makes no call on its observer.  The call [observer.error(e)] sits
    in the body of the function that is never invoked. *)
Theorem onerror_makes_no_call {Ev : Type} (e : Ev) :
  react (on_error e) = [] ∧
  returned (onerror e) = closure [error (of_event e)].
Proof. split; reflexivity. Qed.

(** The polling interval is the one path that does signal a failure. *)
Lemma interval_signals_closed {Ev : Type} :
  react (Ev := Ev) (on_interval (code CLOSED)) =
  [error (of_text "connection got closed unexpectedly")].
Proof. reflexivity. Qed.

Lemma react_error_inv {Ev : Type} (s : signal Ev) f :
  error f ∈ react s →
  s = on_interval (code CLOSED) ∧
  f = of_text "connection got closed unexpectedly".
Proof.
  destruct s as [data|e|readyState]; simpl.
  - intros Hin%list_elem_of_singleton. discriminate.
  - intros Hin. by apply elem_of_nil in Hin.
  - case_decide as Hrs; intros Hin.
    + apply list_elem_of_singleton in Hin. injection Hin as ->. by subst.
    + by apply elem_of_nil in Hin.
Qed.

End AdapterFacts.

(** ** The store *)

Module StoreFacts.
Import Store.
Section store_facts.
Context {A : Type}.
Implicit Types (h : store A) (r : ref) (f g : list A → list A).

Lemma contents_mutate_eq f r h :
  (r < length h)%nat → contents (mutate f r h) r = f (contents h r).
Proof.
  intros Hr. unfold contents, mutate. rewrite list_lookup_alter_eq.
  destruct (lookup_lt_is_Some_2 h r Hr) as [a ->]. done.
Qed.

Lemma contents_mutate_ne f r r' h :
  r ≠ r' → contents (mutate f r h) r' = contents h r'.
Proof.
  intros Hne. unfold contents, mutate. by rewrite list_lookup_alter_ne.
Qed.

Lemma mutate_mutate f g r h :
  mutate f r (mutate g r h) = mutate (f ∘ g) r h.
Proof. apply list_alter_alter_eq. Qed.

Lemma mutate_id r h : mutate (λ a, a) r h = h.
Proof. by apply list_alter_id. Qed.

Lemma length_mutate f r h : length (mutate f r h) = length h.
Proof. apply length_alter. Qed.

Lemma contents_alloc h a :
  contents (alloc h a).1 (alloc h a).2 = a.
Proof.
  unfold contents, alloc. simpl.
  by rewrite lookup_app_r, Nat.sub_diag.
Qed.

End store_facts.
End StoreFacts.

(** ** The list watch *)

Module ListWatchFacts.
Import Decode ListWatch.
Section list_watch_facts.
Context {V E Ev : Type}.
Local Abbreviation item := (gmap string V).
Context (type_of : E → option string).
Context (findItem : item → E → bool).
Context (getItem : E → item).
Context (decode : string → decoded E).
Local Abbreviation step :=
  (ListWatch.step (Ev := Ev) type_of findItem getItem decode).
Local Abbreviation run :=
  (ListWatch.run (Ev := Ev) type_of findItem getItem decode).
Local Abbreviation reducer := (Reducer.reducer type_of findItem getItem).
Local Abbreviation fold_events :=
  (Reducer.fold_events type_of findItem getItem).
Local Abbreviation observe :=
  (ListWatch.observe (Ev := Ev) type_of findItem getItem decode).
Local Abbreviation messages := (ListWatch.messages (Ev := Ev)).
Local Abbreviation decodes := (ListWatch.decodes decode).
Implicit Types (st : hook (V := V)) (s : live) (ev : event (Ev := Ev)).
Implicit Types (h : Store.store item) (init : option Store.ref).

Lemma run_app st evs1 evs2 : run st (evs1 ++ evs2) = run (run st evs1) evs2.
Proof. apply foldl_app. Qed.

(** *** A message that decodes to a change *)

Lemma step_message st s data change :
  subscription st = Some s → source s = connected →
  decode data = value (Some change) →
  step st (transport (Adapter.on_message data)) =
  with_subscription
    (Some {| source := connected; acc := acc s;
             buffer := buffer s ++ [acc s] |})
    (with_heap (Store.mutate (λ a, reducer a change) (acc s) (heap st)) st).
Proof.
  intros Hsub Hsrc Hdec. simpl. unfold ListWatch.observe.
  rewrite Hsub, Hsrc, Hdec. unfold scan_next, scan_callback.
  by rewrite Hsrc.
Qed.

(** A burst of messages folds the changes into the one array behind the
    accumulator, and puts one reference to it in the buffer per message. *)
Lemma run_messages datas changes : ∀ st s,
  subscription st = Some s → source s = connected →
  decodes datas changes →
  run st (messages datas) =
  with_subscription
    (Some {| source := connected; acc := acc s;
             buffer := buffer s ++ replicate (length changes) (acc s) |})
    (with_heap
       (Store.mutate (λ a, fold_events a changes) (acc s) (heap st)) st).
Proof.
  intros st s Hsub Hsrc Hdec. revert st s Hsub Hsrc.
  induction Hdec as [|data change datas changes Hd Hrest IH];
    intros st s Hsub Hsrc.
  - simpl. rewrite app_nil_r, StoreFacts.mutate_id.
    destruct st, s; simpl in *. by subst.
  - cbn [ListWatch.messages fmap list_fmap ListWatch.run foldl].
    rewrite (step_message st s data change) by done.
    set (st1 := with_subscription _ _).
    specialize (IH st1 _ eq_refl eq_refl). unfold ListWatch.run in IH.
    unfold ListWatch.messages in IH. rewrite IH. unfold st1. simpl.
    unfold with_subscription, with_heap. simpl.
    rewrite StoreFacts.mutate_mutate, <-app_assoc. done.
Qed.

(** *** The buffer closes *)

Lemma deliver_all (ls : list Store.ref) : ∀ st,
  let st' := foldl (λ st0 l, setItems_copy l st0) st ls in
  renders st' = renders st ++ (Store.contents (heap st) <$> ls) ∧
  heap st' = heap st ∧ subscription st' = subscription st ∧
  error st' = error st ∧ seed st' = seed st.
Proof.
  induction ls as [|l ls IH]; intros st; simpl.
  - by rewrite app_nil_r.
  - destruct (IH (setItems_copy l st)) as (-> & -> & -> & -> & ->).
    simpl. by rewrite <-app_assoc.
Qed.

Lemma renders_flush st s :
  subscription st = Some s →
  renders (step st buffer_due) =
  renders st ++ (Store.contents (heap st) <$> buffer s).
Proof.
  intros Hsub. simpl. unfold flush. rewrite Hsub.
  by destruct (deliver_all (buffer s)
    (with_subscription
       (Some {| source := source s; acc := acc s; buffer := [] |}) st))
    as (-> & _).
Qed.

(** *** Errors *)

(** The error callback of the transport reaches nothing in the pipe; the
    poll that reads [CLOSED] reaches [retryWhen]. *)
Lemma transport_error_is_dropped st (e : Ev) :
  step st (transport (Adapter.on_error e)) = st.
Proof. reflexivity. Qed.

Lemma closed_poll_is_retried st s :
  subscription st = Some s → source s = connected →
  subscription
    (step st (transport (Adapter.on_interval (Adapter.code Adapter.CLOSED)))) =
  Some {| source := retrying; acc := acc s; buffer := buffer s |}.
Proof.
  intros Hsub Hsrc. simpl. unfold ListWatch.observe. by rewrite Hsub, Hsrc.
Qed.

Lemma observe_error c st :
  error st = true → error (observe c st) = true.
Proof.
  intros Herr. unfold ListWatch.observe, retry, scan_next, scan_callback.
  repeat case_match; simplify_eq; done.
Qed.

Lemma error_stays st ev : error st = true → error (step st ev) = true.
Proof.
  intros Herr. destruct ev as [sig| | |hidden| |]; simpl.
  - generalize (Adapter.react sig). intros calls. revert st Herr.
    induction calls as [|c calls IH]; intros st Herr; [done|].
    simpl. by apply IH, observe_error.
  - by repeat case_match.
  - unfold flush. case_match; [|done].
    by destruct (deliver_all (buffer l)
      (with_subscription
         (Some {| source := source l; acc := acc l; buffer := [] |}) st))
      as (_ & _ & _ & -> & _).
  - by repeat case_match.
  - by case_match.
  - done.
Qed.




(** *** The accumulator is the seed *)

Lemma observe_seed c st :
  seed (observe c st) = seed st.
Proof.
  unfold ListWatch.observe, retry, scan_next, scan_callback.
  repeat case_match; simplify_eq; done.
Qed.

Lemma observe_aliased c st :
  aliased st → aliased (observe c st).
Proof.
  intros Hal. unfold ListWatch.observe.
  destruct (subscription st) as [s|] eqn:Hsub; [|done].
  destruct (Hal s Hsub) as [Hacc Hbuf].
  unfold retry, scan_next, scan_callback.
  repeat case_match; simplify_eq; intros s' Hs'; simpl in *; simplify_eq;
    simpl; try done.
  split; [done|]. apply Forall_app. split; [done|]. by constructor.
Qed.

Lemma step_seed st ev : seed (step st ev) = seed st.
Proof.
  destruct ev as [sig| | |hidden| |]; simpl.
  - generalize (Adapter.react sig). intros calls. revert st.
    induction calls as [|c calls IH]; intros st; [done|].
    simpl. by rewrite IH, observe_seed.
  - by repeat case_match.
  - unfold flush. case_match; [|done].
    by destruct (deliver_all (buffer l)
      (with_subscription
         (Some {| source := source l; acc := acc l; buffer := [] |}) st))
      as (_ & _ & _ & _ & ->).
  - by repeat case_match.
  - by case_match.
  - done.
Qed.

Lemma step_aliased st ev : aliased st → aliased (step st ev).
Proof.
  intros Hal. destruct ev as [sig| | |hidden| |]; simpl.
  - generalize (Adapter.react sig). intros calls. revert st Hal.
    induction calls as [|c calls IH]; intros st Hal; [done|].
    simpl. by apply IH, observe_aliased.
  - destruct (subscription st) as [s|] eqn:Hsub; [|done].
    destruct (source s); [done|].
    intros s' Hs'. simpl in *. simplify_eq. simpl. by apply Hal.
  - unfold flush. destruct (subscription st) as [s|] eqn:Hsub; [|done].
    destruct (deliver_all (buffer s)
      (with_subscription
         (Some {| source := source s; acc := acc s; buffer := [] |}) st))
      as (_ & _ & Hsub' & _ & Hseed).
    intros s' Hs'. rewrite Hsub' in Hs'. rewrite Hseed.
    simpl in *. simplify_eq. simpl. split; [by apply Hal|constructor].
  - repeat case_match; try done; intros s' Hs'; simpl in *; simplify_eq.
    simpl. split; [done|constructor].
  - by case_match.
  - intros s' Hs'. simpl in *. done.
Qed.

Lemma mount_aliased h init hidden : aliased (mount h init hidden).
Proof.
  unfold mount. destruct init as [r|], hidden; simpl;
    intros s Hs; simpl in *; simplify_eq; simpl; by split; [|constructor].
Qed.

Lemma run_aliased evs : ∀ st, aliased st → aliased (run st evs).
Proof.
  induction evs as [|ev evs IH]; intros st Hal; [done|].
  simpl. by apply IH, step_aliased.
Qed.

Lemma run_seed evs : ∀ st, seed (run st evs) = seed st.
Proof.
  induction evs as [|ev evs IH]; intros st; [done|].
  simpl. by rewrite IH, step_seed.
Qed.

(** Whatever happened before, a fold that is live works on the array behind
    the seed. *)
Lemma fold_state_seed h init hidden evs :
  let st := run (mount h init hidden) evs in
  ∀ s, subscription st = Some s →
    fold_state st = Some (Store.contents (heap st) (seed st)).
Proof.
  intros st s Hsub. unfold fold_state. rewrite Hsub. simpl.
  destruct (run_aliased evs _ (mount_aliased h init hidden) s Hsub) as [-> _].
  done.
Qed.

(** Hiding and showing the page subscribes [scan] again, with the same
    seed reference: the fold goes on from the contents the array has by
    then. *)
Lemma restart_reads_seed st s :
  listening st = true → subscription st = Some s →
  fold_state (run st [visibilitychange true; visibilitychange false]) =
  Some (Store.contents (heap st) (seed st)).
Proof.
  intros Hlis Hsub. simpl. rewrite Hlis, Hsub. simpl. by rewrite Hlis.
Qed.

(** *** The buffer *)

(** [C3] A burst of messages within one window of the buffer, then the end
    of the window: one snapshot is handed on per message, none is left in
    the buffer, and each of them is the state of the collection at the end
    of the window.  The states between two messages of one burst are not
    handed on as such: the buffer holds references to the one array. *)
Theorem buffer_forwards_state_at_flush st s datas changes :
  subscription st = Some s → source s = connected → buffer s = [] →
  (acc s < length (heap st))%nat →
  decodes datas changes →
  let st' := run st (messages datas ++ [buffer_due]) in
  renders st' =
    renders st ++
    replicate (length changes)
      (fold_events (Store.contents (heap st) (acc s)) changes) ∧
  buffer <$> subscription st' = Some [].
Proof.
  intros Hsub Hsrc Hbuf Hacc Hdec st'. subst st'.
  rewrite run_app, (run_messages datas changes st s) by done.
  set (st1 := with_subscription _ _).
  change (run st1 [buffer_due]) with (step st1 buffer_due).
  split.
  - rewrite (renders_flush st1 _ eq_refl). simpl. rewrite Hbuf. simpl.
    rewrite fmap_replicate, StoreFacts.contents_mutate_eq by done. done.
  - simpl. unfold flush. simpl.
    destruct (deliver_all (buffer s ++ replicate (length changes) (acc s))
      (with_subscription
         (Some {| source := connected; acc := acc s; buffer := [] |}) st1))
      as (_ & _ & -> & _). done.
Qed.

(** *** The caller's array *)

(** [C10] With a caller-supplied [init], the accumulator of [scan] is that
    very array: after the messages of a run, its contents are the folded
    snapshot, and so they differ from what the caller passed whenever the
    snapshot does. *)
Theorem init_array_holds_the_snapshot h (init : Store.ref) datas changes :
  (init < length h)%nat → decodes datas changes →
  let st := run (mount h (Some init) false) (messages datas) in
  let snapshot := fold_events (Store.contents h init) changes in
  acc <$> subscription st = Some init ∧
  Store.contents (heap st) init = snapshot ∧
  (snapshot ≠ Store.contents h init →
   Store.contents (heap st) init ≠ Store.contents h init).
Proof.
  intros Hinit Hdec st snapshot. subst st snapshot.
  rewrite (run_messages datas changes (mount h (Some init) false)
    {| source := connected; acc := init; buffer := [] |}
    eq_refl eq_refl Hdec). simpl.
  rewrite StoreFacts.contents_mutate_eq by done.
  split_and!; [done..|]. intros Hne. done.
Qed.

End list_watch_facts.
End ListWatchFacts.

(** ** The single-item watch *)

Module ScalarWatchFacts.
Import Decode ScalarWatch.
Section scalar_watch_facts.
Context {V Ev : Type}.
Local Abbreviation T := (gmap string V).
Context (decode : string → decoded T).
Local Abbreviation step := (ScalarWatch.step (Ev := Ev) decode).
Local Abbreviation run := (ScalarWatch.run (Ev := Ev) decode).

(** Without a subscription and without a listener no event has an effect. *)
Lemma step_idle url (ev : event (Ev := Ev)) : step url idle ev = idle.
Proof.
  destruct ev as [sig| | |hidden| |]; try reflexivity.
  simpl. induction (Adapter.react sig) as [|c calls IH]; [done|].
  simpl. exact IH.
Qed.

Lemma run_idle url (evs : list (event (Ev := Ev))) : run url idle evs = idle.
Proof.
  induction evs as [|ev evs IH]; [done|].
  simpl. rewrite step_idle. exact IH.
Qed.

(** [C9] With [subscribe = false] the effect returns at once: whatever the
    URL, the timeout and the events that follow, no [EventSource] is ever
    built, nothing is subscribed, and the item stays the empty record. *)
Theorem unsubscribed_watch_stays_default (url : string)
    (timeoutAfter : option Z) (hidden : bool)
    (evs : list (event (Ev := Ev))) :
  let st := run url (mount url false timeoutAfter hidden) evs in
  item st = Some ∅ ∧ opened st = [] ∧ subscription st = None.
Proof.
  simpl. change (mount url false timeoutAfter hidden) with (idle (V := V)).
  by rewrite run_idle.
Qed.

End scalar_watch_facts.
End ScalarWatchFacts.

(** ** The caller of the examples *)

Module CallerFacts.
Import Decode Caller.

Lemma findItem_key (i : item) (c : change) :
  findItem i c = true ↔ item_key i = change_key c.
Proof. apply bool_decide_eq_true. Qed.

Lemma getItem_key (c : change) : item_key (getItem c) = change_key c.
Proof. unfold item_key, getItem, change_key. by rewrite lookup_delete_ne. Qed.

Lemma spread_key (a b : item) :
  item_key a = item_key b → item_key (Reducer.spread a b) = item_key b.
Proof.
  unfold item_key. intros Hk. rewrite ReducerFacts.spread_lookup.
  by destruct (b !! "id").
Qed.

(** The scenarios of the reducer. *)
Example added_updated_deleted :
  fold_events [] [Added "1" "a"; Updated "1" "b"; Deleted "1"] = [].
Proof. vm_compute. reflexivity. Qed.

Example updated_is_merged :
  fold_events [record "1" "a"] [Updated "1" "b"] = [record "1" "b"].
Proof. vm_compute. reflexivity. Qed.

Example added_is_prepended :
  fold_events [record "1" "a"] [Added "2" "b"] =
  [record "2" "b"; record "1" "a"].
Proof. vm_compute. reflexivity. Qed.

(** A single-item watch that does subscribe follows the stream. *)
Example subscribed_watch_updates :
  let st :=
    scalar_run "/watch" (ScalarWatch.mount "/watch" true None false)
      [ScalarWatch.transport (Adapter.on_message (added_text "1" "a"));
       ScalarWatch.buffer_due] in
  ScalarWatch.item st = Some (Added "1" "a") ∧
  ScalarWatch.opened st = ["/watch"].
Proof. vm_compute. done. Qed.

Lemma decodes_two :
  ListWatch.decodes decode [added_text "1" "a"; added_text "2" "b"]
    [Added "1" "a"; Added "2" "b"].
Proof. repeat constructor. Qed.

Lemma decodes_one :
  ListWatch.decodes decode [added_text "1" "a"] [Added "1" "a"].
Proof. repeat constructor. Qed.

End CallerFacts.

(** ** The properties at the caller of the examples *)

Module Scenarios.
Import Decode Caller.

(** A late [Deleted] for key 1, when only key 2 is known. *)
Lemma deleted_unknown_is_noop_witness :
  type_of (Deleted "1") = Some "Deleted" ∧
  reducer [record "2" "b"] (Deleted "1") = [record "2" "b"] ∧
  reducer (reducer [record "2" "b"] (Deleted "1")) (Deleted "1") =
  reducer [record "2" "b"] (Deleted "1").
Proof.
  split; [reflexivity|].
  apply (ReducerFacts.deleted_unknown_is_noop type_of findItem getItem).
  - reflexivity.
  - intros i Hi. apply list_elem_of_singleton in Hi. subst i.
    vm_compute. reflexivity.
Defined.

(** An [Updated] for key 1, which is known. *)
Lemma updated_merges_in_place_witness :
  type_of (Updated "1" "b") = Some "Updated" ∧
  ∃ n old,
    Reducer.first_match findItem (Updated "1" "b") [record "1" "a"] n old ∧
    reducer [record "1" "a"] (Updated "1" "b") =
    <[n := Reducer.spread old (getItem (Updated "1" "b"))]> [record "1" "a"].
Proof.
  split; [reflexivity|].
  destruct (ReducerFacts.updated_merges_in_place type_of findItem getItem
              (Updated "1" "b") [record "1" "a"] eq_refl) as [Hfound _].
  destruct Hfound as (n & old & Hfirst & Hstep & _).
  - exists (record "1" "a"). split; [left|vm_compute; reflexivity].
  - exists n, old. split; [exact Hfirst|exact Hstep].
Defined.

(** An [Added] for key 2, which is not known. *)
Lemma other_replaces_or_prepends_witness :
  type_of (Added "2" "b") ≠ Some "Deleted" ∧
  type_of (Added "2" "b") ≠ Some "Updated" ∧
  reducer [record "1" "a"] (Added "2" "b") =
    getItem (Added "2" "b") :: [record "1" "a"] ∧
  length (reducer [record "1" "a"] (Added "2" "b")) = 2%nat.
Proof.
  assert (type_of (Added "2" "b") ≠ Some "Deleted") as Hd
    by (vm_compute; discriminate).
  assert (type_of (Added "2" "b") ≠ Some "Updated") as Hu
    by (vm_compute; discriminate).
  split; [exact Hd|]. split; [exact Hu|].
  destruct (ReducerFacts.other_replaces_or_prepends type_of findItem getItem
              (Added "2" "b") [record "1" "a"] Hd Hu) as [_ Hnew].
  apply Hnew. intros i Hi. apply list_elem_of_singleton in Hi. subst i.
  vm_compute. reflexivity.
Defined.

(** Keys stay unique along a fold that adds, updates and adds again. *)
Lemma fold_keeps_one_entry_per_key_witness :
  Reducer.unique_keys item_key [record "1" "a"] ∧
  let snapshot :=
    Reducer.fold_events type_of findItem getItem [record "1" "a"]
      (take 3 [Added "2" "b"; Updated "1" "c"; Added "2" "d"]) in
  Reducer.unique_keys item_key snapshot ∧
  Reducer.at_most_one_match findItem snapshot.
Proof.
  assert (Reducer.unique_keys item_key [record "1" "a"]) as Hinit.
  { intros k. unfold Reducer.with_key. rewrite filter_cons.
    case_decide; simpl; lia. }
  split; [exact Hinit|].
  apply (ReducerFacts.fold_keeps_one_entry_per_key type_of findItem getItem
           item_key change_key CallerFacts.findItem_key
           CallerFacts.getItem_key CallerFacts.spread_key
           [record "1" "a"]
           [Added "2" "b"; Updated "1" "c"; Added "2" "d"] Hinit 3).
Defined.

(** [C2] One change, then the page is hidden and shown again: the fold that
    [start] subscribes begins from the collection that the first
    subscription left, not from the empty list it was given as seed. *)
Theorem restart_resumes_accumulated_state :
  let shown :=
    list_run watch_without_init
      [message (added_text "1" "a");
       ListWatch.visibilitychange true;
       ListWatch.visibilitychange false] in
  ListWatch.fold_state watch_without_init = Some [] ∧
  ListWatch.buffer <$> ListWatch.subscription shown = Some [] ∧
  ListWatch.opened shown = 2%nat ∧
  ListWatch.fold_state shown = Some [record "1" "a"].
Proof. vm_compute. done. Qed.

(** Two changes in one window: the state between them is never handed to
    the consumer, neither at the end of the window nor at the next. *)
Lemma burst_state_not_delivered :
  ListWatch.fold_state
    (list_run watch_without_init [message (added_text "1" "a")]) =
    Some [record "1" "a"] ∧
  [record "1" "a"] ∉
    ListWatch.renders
      (list_run watch_without_init
         [message (added_text "1" "a"); message (added_text "2" "b");
          ListWatch.buffer_due; ListWatch.buffer_due]).
Proof.
  split; [vm_compute; reflexivity|].
  apply (bool_decide_unpack _). vm_compute. exact I.
Qed.

Lemma buffer_forwards_state_at_flush_witness :
  ListWatch.subscription watch_without_init = Some started ∧
  ListWatch.renders
    (list_run watch_without_init
       (ListWatch.messages [added_text "1" "a"; added_text "2" "b"] ++
        [ListWatch.buffer_due])) =
  [[record "2" "b"; record "1" "a"]; [record "2" "b"; record "1" "a"]].
Proof.
  split; [reflexivity|].
  destruct (ListWatchFacts.buffer_forwards_state_at_flush (Ev := unit)
              type_of findItem getItem decode watch_without_init started
              [added_text "1" "a"; added_text "2" "b"]
              [Added "1" "a"; Added "2" "b"]
              eq_refl eq_refl eq_refl (Nat.lt_0_succ 0)
              CallerFacts.decodes_two) as [Hrenders _].
  unfold list_run. rewrite Hrenders. vm_compute. reflexivity.
Defined.



(** A change is added and deleted again: the second step changes the
    snapshot, and the caller's array is back at its first contents. *)
Lemma init_contents_restored :
  let before := list_run watch_with_init [message (added_text "1" "a")] in
  let after :=
    list_run watch_with_init
      [message (added_text "1" "a"); message (deleted_text "1")] in
  ListWatch.fold_state after ≠ ListWatch.fold_state before ∧
  Store.contents (ListWatch.heap after) 0 =
  Store.contents (ListWatch.heap watch_with_init) 0.
Proof.
  split; [|vm_compute; reflexivity].
  apply (bool_decide_unpack _). vm_compute. exact I.
Qed.

Lemma init_array_holds_the_snapshot_witness :
  let st := list_run watch_with_init [message (added_text "1" "a")] in
  (0 < length [[] : list item])%nat ∧
  Store.contents (ListWatch.heap st) 0 = [record "1" "a"] ∧
  Store.contents (ListWatch.heap st) 0 ≠ [].
Proof.
  destruct (ListWatchFacts.init_array_holds_the_snapshot (Ev := unit)
              type_of findItem getItem decode [[]] 0%nat
              [added_text "1" "a"] [Added "1" "a"]
              (Nat.lt_0_succ 0) CallerFacts.decodes_one)
    as (_ & Hcontents & Hdiffer).
  split_and!.
  - apply Nat.lt_0_succ.
  - exact Hcontents.
  - apply Hdiffer. discriminate.
Defined.

End Scenarios.

(** ** More on the reducer: what a change does to the entries of its key
       and to the others *)

Module ReducerMore.
Import Reducer.
Section reducer_more.
Context {V E : Type}.
Local Abbreviation item := (gmap string V).
Context (type_of : E → option string).
Context (findItem : item → E → bool).
Context (getItem : E → item).
Local Abbreviation reducer := (Reducer.reducer type_of findItem getItem).
Local Abbreviation fold_events :=
  (Reducer.fold_events type_of findItem getItem).
Local Abbreviation first_match := (Reducer.first_match findItem).
Local Abbreviation absent := (Reducer.absent findItem).
Implicit Types (items front back : list item) (change : E) (old : item).

(** A first match cuts the collection in three. *)
Lemma first_match_split change items n old :
  first_match change items n old →
  ∃ front back,
    items = front ++ old :: back ∧ length front = n ∧ absent change front.
Proof.
  intros (Hn & Hold & Hbefore).
  exists (take n items), (drop (S n) items). split_and!.
  - by rewrite take_drop_middle.
  - apply length_take_le. apply lookup_lt_Some in Hn. lia.
  - intros i (m & Hm & Hlt)%elem_of_take. by apply (Hbefore m i).
Qed.

Lemma split_first_match change front back old :
  absent change front → findItem old change = true →
  first_match change (front ++ old :: back) (length front) old.
Proof.
  intros Hno Hold. split_and!.
  - by apply list_lookup_middle.
  - done.
  - intros m y Hm Hy. rewrite lookup_app_l in Hy by done.
    apply Hno. by eapply list_elem_of_lookup_2.
Qed.

Lemma insert_middle front back (x y : item) :
  <[length front := y]> (front ++ x :: back) = front ++ y :: back.
Proof.
  rewrite <-(Nat.add_0_r (length front)). by rewrite insert_app_r.
Qed.

Lemma deleted_split change front back old :
  type_of change = Some "Deleted" →
  absent change front → findItem old change = true →
  reducer (front ++ old :: back) change = front ++ back.
Proof.
  intros Hty Hno Hold.
  rewrite (ReducerFacts.deleted_first type_of findItem getItem
             change _ (length front) old Hty
             (split_first_match _ _ _ _ Hno Hold)).
  apply delete_middle.
Qed.

Lemma updated_split change front back old :
  type_of change = Some "Updated" →
  absent change front → findItem old change = true →
  reducer (front ++ old :: back) change =
  front ++ spread old (getItem change) :: back.
Proof.
  intros Hty Hno Hold.
  rewrite (ReducerFacts.updated_first type_of findItem getItem
             change _ (length front) old Hty
             (split_first_match _ _ _ _ Hno Hold)).
  apply insert_middle.
Qed.

Lemma other_split change front back old :
  type_of change ≠ Some "Deleted" → type_of change ≠ Some "Updated" →
  absent change front → findItem old change = true →
  reducer (front ++ old :: back) change = front ++ getItem change :: back.
Proof.
  intros Hd Hu Hno Hold.
  rewrite (ReducerFacts.other_first type_of findItem getItem
             change _ (length front) old Hd Hu
             (split_first_match _ _ _ _ Hno Hold)).
  apply insert_middle.
Qed.

(** Every step is one of these cases. *)
Lemma reducer_cases change items :
  (absent change items ∧
   (reducer items change = items ∨
    type_of change ≠ Some "Deleted" ∧ type_of change ≠ Some "Updated" ∧
    reducer items change = getItem change :: items)) ∨
  (∃ front old back,
     items = front ++ old :: back ∧ absent change front ∧
     findItem old change = true ∧
     (type_of change = Some "Deleted" ∧
      reducer items change = front ++ back ∨
      type_of change = Some "Updated" ∧
      reducer items change = front ++ spread old (getItem change) :: back ∨
      type_of change ≠ Some "Deleted" ∧
      type_of change ≠ Some "Updated" ∧
      reducer items change = front ++ getItem change :: back)).
Proof.
  destruct (ReducerFacts.absent_or_first findItem change items)
    as [Hno|(n & old & Hfirst)].
  - left. split; [done|].
    destruct (decide (type_of change = Some "Deleted")) as [Hd|Hd].
    { left. by apply ReducerFacts.deleted_absent. }
    destruct (decide (type_of change = Some "Updated")) as [Hu|Hu].
    { left. by apply ReducerFacts.updated_absent. }
    right. split_and!; [done..|]. by apply ReducerFacts.other_absent.
  - right.
    destruct (first_match_split _ _ _ _ Hfirst)
      as (front & back & -> & _ & Hno).
    assert (findItem old change = true) as Hold by apply Hfirst.
    exists front, old, back. split_and!; [done..|].
    destruct (decide (type_of change = Some "Deleted")) as [Hd|Hd].
    { left. split; [done|]. by apply deleted_split. }
    destruct (decide (type_of change = Some "Updated")) as [Hu|Hu].
    { right. left. split; [done|]. by apply updated_split. }
    right. right. split_and!; [done..|]. by apply other_split.
Qed.

(** [X1] A [Deleted] change that matches some entry removes the first
    entry it matches, and nothing else: the entries before and after it
    keep their order, and the collection is one entry shorter. *)
Theorem deleted_removes_first_match change items :
  type_of change = Some "Deleted" →
  (∃ i, i ∈ items ∧ findItem i change = true) →
  ∃ front old back,
    items = front ++ old :: back ∧ absent change front ∧
    findItem old change = true ∧
    reducer items change = front ++ back ∧
    S (length (reducer items change)) = length items.
Proof.
  intros Hty (i & Hi & Hmatch).
  destruct (reducer_cases change items)
    as [[Hno _]|(front & old & back & -> & Hno & Hold & Hcase)].
  - rewrite (Hno i Hi) in Hmatch. discriminate.
  - exists front, old, back. split_and!; [done..| |].
    + destruct Hcase as [[_ ->]|[[? _]|(? & _)]]; [done|congruence..].
    + destruct Hcase as [[_ ->]|[[? _]|(? & _)]]; [|congruence..].
      rewrite !length_app. simpl. lia.
Qed.

Lemma length_reducer change items :
  (length (reducer items change) ≤ S (length items))%nat ∧
  (length items ≤ S (length (reducer items change)))%nat.
Proof.
  destruct (reducer_cases change items)
    as [[_ [->|(_ & _ & ->)]]
       |(front & old & back & -> & _ & _ & [[_ ->]|[[_ ->]|(_ & _ & ->)]])];
    rewrite ?length_app; simpl; rewrite ?length_app; simpl; lia.
Qed.

(** [X2] A change adds at most one entry and removes at most one: after a
    fold, the length of the collection is within the number of changes of
    the length it started with. *)
Theorem fold_length_bounds init changes :
  (length (fold_events init changes) ≤ length init + length changes)%nat ∧
  (length init ≤ length (fold_events init changes) + length changes)%nat.
Proof.
  revert init. induction changes as [|change rest IH]; intros init; simpl.
  - lia.
  - destruct (IH (reducer init change)) as [Hup Hdown].
    destruct (length_reducer change init) as [Hup1 Hdown1].
    unfold Reducer.fold_events in *. lia.
Qed.

(** *** With logical keys *)

Section keyed.
Context {K : Type} `{EqDecision K}.
Context (item_key : item → K) (change_key : E → K).
Local Abbreviation unique_keys := (Reducer.unique_keys item_key).
Local Abbreviation with_key := (Reducer.with_key item_key).

Hypothesis findItem_key :
  ∀ i change, findItem i change = true ↔ item_key i = change_key change.
Hypothesis getItem_key :
  ∀ change, item_key (getItem change) = change_key change.
Hypothesis spread_key :
  ∀ a b, item_key a = item_key b → item_key (spread a b) = item_key b.

Lemma absent_iff change items :
  absent change items ↔
  ∀ i, i ∈ items → item_key i ≠ change_key change.
Proof.
  split; intros Hno i Hi.
  - intros Hk. apply findItem_key in Hk. rewrite (Hno i Hi) in Hk.
    discriminate.
  - destruct (findItem i change) eqn:Hf; [|done].
    apply findItem_key in Hf. by destruct (Hno i Hi).
Qed.

Lemma absent_app change front back :
  absent change (front ++ back) ↔ absent change front ∧ absent change back.
Proof.
  split.
  - intros Hno. split; intros i Hi; apply Hno, elem_of_app; auto.
  - intros [Hfront Hback] i [Hi|Hi]%elem_of_app; auto.
Qed.

(** In a collection with unique keys, the entries around a match do not
    match. *)
Lemma unique_around change front old back :
  unique_keys (front ++ old :: back) → findItem old change = true →
  absent change front ∧ absent change back.
Proof.
  intros Hone Hold. apply findItem_key in Hold.
  apply (ReducerFacts.unique_keys_NoDup item_key) in Hone.
  rewrite fmap_app, fmap_cons in Hone.
  apply NoDup_app in Hone as (_ & Hfront & [Hback _]%NoDup_cons).
  split; apply absent_iff; intros i Hi Hk.
  - apply (Hfront (item_key i)); [by apply list_elem_of_fmap_2|].
    rewrite Hk, <-Hold. left.
  - apply Hback. rewrite Hold, <-Hk. by apply list_elem_of_fmap_2.
Qed.

Lemma getItem_matches change : findItem (getItem change) change = true.
Proof. apply findItem_key, getItem_key. Qed.

Lemma merged_matches change old :
  findItem old change = true →
  findItem (spread old (getItem change)) change = true.
Proof.
  intros Hold. apply findItem_key in Hold. apply findItem_key.
  rewrite spread_key; rewrite getItem_key; done.
Qed.

(** [X3] In a collection with at most one entry per key, a [Deleted]
    change leaves no entry that the identity predicate matches to it:
    the deleted key is gone. *)
Theorem deleted_key_is_gone change items :
  unique_keys items → type_of change = Some "Deleted" →
  absent change (reducer items change).
Proof.
  intros Hone Hty.
  destruct (reducer_cases change items)
    as [[Hno [->|(? & _)]]
       |(front & old & back & -> & Hno & Hold & Hcase)];
    [done|congruence|].
  destruct Hcase as [[_ ->]|[[? _]|(? & _)]]; [|congruence..].
  apply absent_app. by eapply unique_around.
Qed.

(** [X4] In a collection with at most one entry per key, every change is
    idempotent: handling the same change a second time leaves the
    collection as the first time left it. *)
Theorem change_is_idempotent change items :
  unique_keys items →
  reducer (reducer items change) change = reducer items change.
Proof.
  intros Hone.
  destruct (reducer_cases change items)
    as [[Hno [Hsame|(Hd & Hu & Hfront)]]
       |(front & old & back & -> & Hno & Hold & Hcase)].
  - by rewrite !Hsame.
  - rewrite Hfront.
    apply (other_split change [] items (getItem change) Hd Hu);
      [by intros i Hi%elem_of_nil|apply getItem_matches].
  - destruct (unique_around _ _ _ _ Hone Hold) as [_ Hback].
    destruct Hcase as [[Hd ->]|[[Hu ->]|(Hd & Hu & ->)]].
    + apply ReducerFacts.deleted_absent; [done|]. by apply absent_app.
    + rewrite updated_split; [|done..|by apply merged_matches].
      do 2 f_equal. unfold spread. by rewrite (assoc_L (∪)), (idemp_L (∪)).
    + rewrite other_split; [done..|apply getItem_matches].
Qed.

(** [X5] A change touches the entries of its own key only: the entries of
    any other key are the same, in the same order, after the step. *)
Theorem other_keys_untouched change items k :
  k ≠ change_key change →
  with_key k (reducer items change) = with_key k items.
Proof.
  intros Hk. unfold Reducer.with_key.
  assert (∀ i, item_key i = change_key change →
            ∀ l, filter (λ i, item_key i = k) (i :: l) =
                 filter (λ i, item_key i = k) l) as Hskip.
  { intros i Hi l. apply filter_cons_False. congruence. }
  destruct (reducer_cases change items)
    as [[Hno [->|(_ & _ & ->)]]
       |(front & old & back & -> & Hno & Hold & Hcase)].
  - done.
  - apply Hskip, getItem_key.
  - assert (item_key old = change_key change) as Hkey
      by by apply findItem_key.
    assert (item_key (spread old (getItem change)) = change_key change)
      as Hmerged by (rewrite spread_key; rewrite getItem_key; done).
    destruct Hcase as [[_ ->]|[[_ ->]|(_ & _ & ->)]];
      rewrite !filter_app, (Hskip old Hkey).
    + done.
    + by rewrite (Hskip _ Hmerged).
    + by rewrite (Hskip _ (getItem_key change)).
Qed.

(** [X6] Upsert, then look up: in a collection with at most one entry per
    key, after a change that is neither [Deleted] nor [Updated] the
    identity predicate matches exactly one entry to the change, the item
    taken from it. *)
Theorem upsert_then_lookup change items :
  unique_keys items →
  type_of change ≠ Some "Deleted" → type_of change ≠ Some "Updated" →
  matching findItem change (reducer items change) = [getItem change].
Proof.
  intros Hone Hd Hu.
  assert (∀ l, absent change l → matching findItem change l = []) as Hnone.
  { intros l Hno. unfold matching. induction l as [|x l IH]; [done|].
    rewrite filter_cons_False.
    - apply IH. intros i Hi. apply Hno. by right.
    - rewrite (Hno x) by left. intros []. }
  assert (∀ l, matching findItem change (getItem change :: l) =
               getItem change :: matching findItem change l) as Hhit.
  { intros l. apply filter_cons_True. by rewrite getItem_matches. }
  destruct (reducer_cases change items)
    as [[Hno [Hsame|(_ & _ & ->)]]
       |(front & old & back & -> & Hno & Hold & Hcase)].
  - rewrite (ReducerFacts.other_absent _ _ _ _ _ Hd Hu Hno) in *.
    by rewrite Hhit, Hnone.
  - by rewrite Hhit, Hnone.
  - destruct (unique_around _ _ _ _ Hone Hold) as [_ Hback].
    destruct Hcase as [[? _]|[[? _]|(_ & _ & ->)]]; [congruence..|].
    unfold matching at 1. rewrite filter_app.
    fold (matching findItem change front).
    fold (matching findItem change (getItem change :: back)).
    by rewrite Hhit, !Hnone.
Qed.

(** [X7] Add, then delete: a change that is neither [Deleted] nor
    [Updated], for a key the collection does not have, followed by a
    [Deleted] change of the same key, gives the collection back. *)
Theorem add_then_delete change gone items :
  absent change items →
  type_of change ≠ Some "Deleted" → type_of change ≠ Some "Updated" →
  type_of gone = Some "Deleted" → change_key gone = change_key change →
  reducer (reducer items change) gone = items.
Proof.
  intros Hno Hd Hu Hty Hk.
  rewrite (ReducerFacts.other_absent _ _ _ _ _ Hd Hu Hno).
  apply (deleted_split gone [] items (getItem change) Hty).
  - by intros i Hi%elem_of_nil.
  - apply findItem_key. by rewrite getItem_key.
Qed.

End keyed.
End reducer_more.
End ReducerMore.

(** ** More on the list watch: flags, visibility, reconnection, cleanup *)

Module ListWatchMore.
Import Decode ListWatch.
Section list_watch_more.
Context {V E Ev : Type}.
Local Abbreviation item := (gmap string V).
Context (type_of : E → option string).
Context (findItem : item → E → bool).
Context (getItem : E → item).
Context (decode : string → decoded E).
Local Abbreviation step :=
  (ListWatch.step (Ev := Ev) type_of findItem getItem decode).
Local Abbreviation run :=
  (ListWatch.run (Ev := Ev) type_of findItem getItem decode).
Local Abbreviation rerun :=
  (ListWatch.rerun (Ev := Ev) type_of findItem getItem decode).
Local Abbreviation observe :=
  (ListWatch.observe (Ev := Ev) type_of findItem getItem decode).
Local Abbreviation fold_events :=
  (Reducer.fold_events type_of findItem getItem).
Local Abbreviation messages := (ListWatch.messages (Ev := Ev)).
Local Abbreviation decodes := (ListWatch.decodes decode).
Local Abbreviation has_result := (ListWatch.has_result (Ev := Ev) decode).
Local Abbreviation run_messages :=
  (ListWatchFacts.run_messages (Ev := Ev) type_of findItem getItem decode).
Implicit Types (st : hook (V := V)) (s : live) (ev : event (Ev := Ev)).
Implicit Types (evs : list (event (Ev := Ev))).
Implicit Types (h : Store.store item) (init : option Store.ref).

(** *** What the stages leave alone *)

Lemma observe_frame c st :
  same_screen st (observe c st) ∧ same_timer st (observe c st) ∧
  opened (observe c st) = opened st.
Proof.
  unfold ListWatch.observe, retry, scan_next, scan_callback.
  repeat case_match; simplify_eq; done.
Qed.

Lemma transport_frame st sig :
  same_screen st (step st (transport sig)) ∧
  same_timer st (step st (transport sig)) ∧
  opened (step st (transport sig)) = opened st.
Proof.
  simpl. generalize (Adapter.react sig). intros calls. revert st.
  induction calls as [|c calls IH]; intros st; [done|].
  simpl. destruct (IH (observe c st)) as ([? ?] & [? ?] & ?).
  destruct (observe_frame c st) as ([? ?] & [? ?] & ?).
  split_and!; [split|split|]; congruence.
Qed.

Lemma deliver_frame (ls : list Store.ref) : ∀ st,
  let st' := foldl (λ st0 l, setItems_copy l st0) st ls in
  same_timer st st' ∧ opened st' = opened st ∧ listening st' = listening st.
Proof.
  induction ls as [|l ls IH]; intros st; simpl; [done|].
  destruct (IH (setItems_copy l st)) as ([? ?] & ? & ?).
  split_and!; [split|..]; done.
Qed.

Lemma flush_frame st :
  same_timer st (flush st) ∧ opened (flush st) = opened st ∧
  listening (flush st) = listening st ∧ error (flush st) = error st ∧
  heap (flush st) = heap st.
Proof.
  unfold flush. destruct (subscription st) as [s|]; [|done].
  set (st0 := with_subscription _ st).
  destruct (deliver_frame (buffer s) st0) as ([? ?] & ? & ?).
  destruct (ListWatchFacts.deliver_all (buffer s) st0)
    as (_ & ? & _ & ? & _).
  split_and!; [split|..]; done.
Qed.

(** *** The loading flag *)

Lemma step_timer st ev :
  match ev with
  | loader_due =>
      if loader st
      then loading (step st ev) = false ∧ loader (step st ev) = false
      else same_timer st (step st ev)
  | cleanup => loading (step st ev) = loading st ∧ loader (step st ev) = false
  | _ => same_timer st (step st ev)
  end.
Proof.
  destruct ev as [sig| | |hidden| |].
  - apply transport_frame.
  - simpl. by repeat case_match.
  - apply flush_frame.
  - simpl. by repeat case_match.
  - simpl. by destruct (loader st).
  - done.
Qed.

Lemma loading_run evs : ∀ st,
  loading (run st evs) =
  if loader st then loading st && negb (loader_fires evs) else loading st.
Proof.
  induction evs as [|ev evs IH]; intros st.
  - simpl. destruct (loader st); [|done]. by rewrite andb_true_r.
  - cbn [ListWatch.run foldl]. fold (run (step st ev) evs). rewrite IH.
    pose proof (step_timer st ev) as Hev.
    destruct ev as [sig| | |hidden| |]; cbn [loader_fires];
      try (destruct Hev as [-> ->]; done).
    + destruct (loader st) eqn:Hl.
      * destruct Hev as [-> ->]. by rewrite andb_false_r.
      * destruct Hev as [-> ->]. by rewrite Hl.
    + destruct Hev as [-> ->]. destruct (loader st); [|done].
      by rewrite andb_true_r.
Qed.

(** [X8] In each run of the effect the loading flag goes down exactly when
    the timer that this run sets fires before this run is cleaned up.  From
    the first run the flag is up until then.  When the effect runs again
    the flag keeps the value it had and a new timer is set: a flag that an
    early cleanup left up goes down when the new timer fires.  No other
    event changes the flag. *)
Theorem loading_until_loader h init hidden evs st init' hidden' evs' :
  loading (run (mount h init hidden) evs) = negb (loader_fires evs) ∧
  loading (run (rerun st init' hidden') evs') =
    loading st && negb (loader_fires evs').
Proof.
  split; rewrite loading_run.
  - assert (loader (mount h init hidden) = true ∧
            loading (mount h init hidden) = true) as [-> ->]; [|done].
    unfold mount. by destruct init, hidden.
  - assert (loader (rerun st init' hidden') = true ∧
            loading (rerun st init' hidden') = loading st) as [-> ->];
      [|done].
    unfold ListWatch.rerun. by destruct init', hidden'.
Qed.

(** *** The error flag *)

Lemma run_error_stays evs : ∀ st,
  error st = true → error (run st evs) = true.
Proof.
  induction evs as [|ev evs IH]; intros st Herr; [done|].
  simpl. apply IH.
  by apply (ListWatchFacts.error_stays type_of findItem getItem decode).
Qed.

Lemma step_no_error st ev :
  error st = false → has_result ev → error (step st ev) = false.
Proof.
  intros Herr Hev. destruct ev as [sig| | |hidden| |]; simpl.
  - assert (∀ c,
      (∀ data, c = Adapter.next data → decode data ≠ value None) →
      error (observe c st) = false) as Hobs.
    { intros c Hc. unfold ListWatch.observe, retry, scan_next, scan_callback.
      repeat case_match; simplify_eq; try done. by destruct (Hc data). }
    destruct sig as [data|e|readyState]; simpl.
    + apply Hobs. by intros ? [= <-].
    + done.
    + case_decide; [|done]. simpl. by apply Hobs.
  - by repeat case_match.
  - by destruct (flush_frame st) as (_ & _ & _ & -> & _).
  - by repeat case_match.
  - by case_match.
  - done.
Qed.

(** [X9] Transport failures are never shown as an error: in a run where
    no payload is a JSON document without [result], the error flag stays
    down, whatever error events, closed connections, unparsable payloads,
    retries and visibility changes the run contains. *)
Theorem transport_failures_keep_error_down h init hidden evs :
  Forall has_result evs →
  error (run (mount h init hidden) evs) = false.
Proof.
  assert (error (mount h init hidden) = false) as Hstart
    by (unfold mount; by destruct init, hidden).
  revert Hstart. generalize (mount h init hidden).
  induction evs as [|ev evs IH]; intros st Herr Hall; [done|].
  apply Forall_cons in Hall as [Hev Hall].
  simpl. apply IH; [|done]. by apply step_no_error.
Qed.

(** [X10] The flags are React state and outlive the effect: when the
    effect runs again (a new URL, a new [init], new callbacks), an error
    flag that was up stays up, and a loading flag that was down stays down,
    through every later event. *)
Theorem flags_survive_rerun st init hidden evs :
  (error st = true → error (run (rerun st init hidden) evs) = true) ∧
  (loading st = false → loading (run (rerun st init hidden) evs) = false).
Proof.
  assert (error (rerun st init hidden) = error st ∧
          loading (rerun st init hidden) = loading st ∧
          loader (rerun st init hidden) = true) as (Herr & Hload & Hl).
  { unfold ListWatch.rerun. by destruct init, hidden. }
  split.
  - intros Hup. apply run_error_stays. by rewrite Herr.
  - intros Hdown. rewrite loading_run, Hl, Hload, Hdown. done.
Qed.

(** *** After the cleanup *)

Lemma step_dead st ev :
  subscription st = None → listening st = false → loader st = false →
  step st ev = st.
Proof.
  intros Hsub Hlis Hl. destruct ev as [sig| | |hidden| |]; simpl.
  - induction (Adapter.react sig) as [|c calls IH]; [done|].
    simpl. unfold ListWatch.observe at 2. by rewrite Hsub.
  - by rewrite Hsub.
  - unfold flush. by rewrite Hsub.
  - by rewrite Hlis.
  - by rewrite Hl.
  - destruct st. simpl in *. by subst.
Qed.

(** [X11] The function that the effect returns ends the watch for good:
    after it, no message, timer or visibility change has any effect on the
    state, and no connection is opened. *)
Theorem cleanup_is_final st evs :
  run (step st cleanup) evs = step st cleanup.
Proof.
  induction evs as [|ev evs IH]; [done|].
  cbn [ListWatch.run foldl]. rewrite step_dead by done. exact IH.
Qed.

(** *** While the page is hidden *)

Lemma step_hidden st ev :
  subscription st = None → keeps_hidden ev →
  subscription (step st ev) = None ∧ opened (step st ev) = opened st ∧
  same_screen st (step st ev) ∧ heap (step st ev) = heap st ∧
  error (step st ev) = error st.
Proof.
  intros Hsub Hev. destruct ev as [sig| | |[|]| |]; simpl.
  - assert (foldl (λ st' c, observe c st') st (Adapter.react sig) = st)
      as ->; [|done].
    induction (Adapter.react sig) as [|c calls IH]; [done|].
    simpl. unfold ListWatch.observe at 2. by rewrite Hsub.
  - by rewrite Hsub.
  - unfold flush. by rewrite Hsub.
  - rewrite Hsub. by destruct (listening st).
  - done.
  - by destruct (loader st).
  - done.
Qed.

(** [X12] A hidden page holds no connection: from a state without a
    subscription, and as long as no visibility change shows the page, no
    connection is opened, nothing is rendered, and neither the store nor
    the error flag changes. *)
Theorem hidden_watch_is_inert st evs :
  subscription st = None → Forall keeps_hidden evs →
  let st' := run st evs in
  subscription st' = None ∧ opened st' = opened st ∧
  renders st' = renders st ∧ items st' = items st ∧
  heap st' = heap st ∧ error st' = error st.
Proof.
  intros Hsub Hall. revert st Hsub.
  induction Hall as [|ev evs Hev Hall IH]; intros st Hsub; [done|].
  destruct (step_hidden st ev Hsub Hev) as (Hsub1 & <- & [<- <-] & <- & <-).
  apply (IH _ Hsub1).
Qed.

(** *** Between two ends of a buffer window *)

Lemma step_screen st ev : keeps_buffer ev → same_screen st (step st ev).
Proof.
  intros Hev. destruct ev as [sig| | |hidden| |]; try done.
  - apply transport_frame.
  - simpl. by repeat case_match.
  - simpl. by repeat case_match.
  - simpl. by case_match.
Qed.

(** [X13] The consumer is updated at the ends of buffer windows only:
    a run without such an end, however many changes it folds, calls
    [setItems] not once and leaves the items as they were. *)
Theorem renders_only_when_buffer_closes st evs :
  Forall keeps_buffer evs →
  renders (run st evs) = renders st ∧ items (run st evs) = items st.
Proof.
  intros Hall. revert st.
  induction Hall as [|ev evs Hev Hall IH]; intros st; [done|].
  destruct (step_screen st ev Hev) as [<- <-]. apply IH.
Qed.

(** *** Reconnection *)

(** [X14] A reconnection resumes the fold: when the poll finds the
    connection closed, one new connection is opened after the delay, and
    the changes that arrive on it are folded onto the collection that the
    changes before the failure built; the error flag is not touched. *)
Theorem reconnect_resumes_fold st s before after changes changes' :
  subscription st = Some s → source s = connected →
  (acc s < length (heap st))%nat →
  decodes before changes → decodes after changes' →
  let closed := transport (Adapter.on_interval (Adapter.code Adapter.CLOSED)) in
  let st' :=
    run st (messages before ++ [closed; retry_due] ++ messages after) in
  fold_state st' =
    Some (fold_events (Store.contents (heap st) (acc s))
            (changes ++ changes')) ∧
  opened st' = S (opened st) ∧ error st' = error st.
Proof.
  intros Hsub Hsrc Hacc Hbefore Hafter closed st'. subst st' closed.
  rewrite !(ListWatchFacts.run_app type_of findItem getItem decode).
  rewrite (run_messages before changes st s) by done.
  set (st1 := with_subscription _ _).
  set (st2 := run st1 _).
  rewrite (run_messages after changes' st2
             {| source := connected; acc := acc s;
                buffer := buffer s ++ replicate (length changes) (acc s) |}
             eq_refl eq_refl Hafter).
  unfold fold_state. simpl. split; [|done]. f_equal.
  rewrite !StoreFacts.contents_mutate_eq;
    rewrite ?StoreFacts.length_mutate; try done.
  unfold Reducer.fold_events. by rewrite foldl_app.
Qed.

(** *** Hiding the page with a buffer that is not empty *)

(** [X15] Hiding the page drops the open buffer: the changes of a burst
    that is followed by a hide are folded into the collection but are not
    rendered, neither when the page is shown again nor at the end of the
    next buffer window; the consumer sees them with the next change
    only. *)
Theorem hide_drops_buffer st s datas changes :
  subscription st = Some s → source s = connected → listening st = true →
  acc s = seed st → (seed st < length (heap st))%nat →
  decodes datas changes →
  let st' :=
    run st (messages datas ++
            [visibilitychange true; visibilitychange false; buffer_due]) in
  renders st' = renders st ∧ items st' = items st ∧
  fold_state st' =
    Some (fold_events (Store.contents (heap st) (seed st)) changes).
Proof.
  intros Hsub Hsrc Hlis Hacc Hseed Hdec st'. subst st'.
  rewrite (ListWatchFacts.run_app type_of findItem getItem decode).
  rewrite (run_messages datas changes st s) by done.
  simpl. rewrite Hlis. simpl. rewrite Hlis. unfold flush, fold_state. simpl.
  split_and!; [done..|]. f_equal. rewrite Hacc.
  by rewrite StoreFacts.contents_mutate_eq.
Qed.

End list_watch_more.
End ListWatchMore.

(** ** More on the adapter *)

Module AdapterMore.
Import Adapter.

(** [X16] Over any sequence of messages, error events and polls, the
    adapter signals a failure to its observer for one reason only: a poll
    that read the state [CLOSED]; and the failure is always the same
    text. *)
Theorem failure_comes_from_closed_poll {Ev : Type}
    (sigs : list (signal Ev)) (f : failure Ev) :
  error f ∈ concat (react <$> sigs) →
  on_interval (code CLOSED) ∈ sigs ∧
  f = of_text "connection got closed unexpectedly".
Proof.
  induction sigs as [|sig sigs IH]; simpl.
  - intros Hin. by apply elem_of_nil in Hin.
  - intros [Hin|Hin]%elem_of_app.
    + apply AdapterFacts.react_error_inv in Hin as [-> ->].
      split; [left|done].
    + destruct (IH Hin) as [? ?]. split; [by right|done].
Qed.

End AdapterMore.

(** ** More on the single-item watch *)

Module ScalarWatchMore.
Import Decode ScalarWatch.
Section scalar_watch_more.
Context {V Ev : Type}.
Local Abbreviation T := (gmap string V).
Context (decode : string → decoded T).
Local Abbreviation step := (ScalarWatch.step (Ev := Ev) decode).
Local Abbreviation run := (ScalarWatch.run (Ev := Ev) decode).
Local Abbreviation observe := (ScalarWatch.observe (Ev := Ev) decode).
Local Abbreviation messages := (ScalarWatch.messages (Ev := Ev)).
Local Abbreviation decodes := (ScalarWatch.decodes decode).
Implicit Types (st : hook (V := V)) (s : live (V := V)).
Implicit Types (ev : event (Ev := Ev)) (evs : list (event (Ev := Ev))).
Implicit Types (updates : list (option T)).

Lemma scalar_run_app url st evs evs' :
  run url st (evs ++ evs') = run url (run url st evs) evs'.
Proof. apply foldl_app. Qed.

(** A burst of messages: [scan] keeps the last value, the buffer all of
    them. *)
Lemma scalar_run_messages url datas updates : ∀ st s,
  subscription st = Some s → source s = connected →
  decodes datas updates →
  run url st (messages datas) =
  with_subscription
    (Some {| source := connected; acc := default (acc s) (last updates);
             buffer := buffer s ++ updates |}) st.
Proof.
  intros st s Hsub Hsrc Hdec. revert st s Hsub Hsrc.
  induction Hdec as [|data update datas updates Hd Hrest IH];
    intros st s Hsub Hsrc.
  - simpl. rewrite app_nil_r. destruct st, s; simpl in *. by subst.
  - cbn [ScalarWatch.messages fmap list_fmap ScalarWatch.run foldl].
    assert (step url st (transport (Adapter.on_message data)) =
            with_subscription
              (Some {| source := connected; acc := update;
                       buffer := buffer s ++ [update] |}) st) as ->.
    { simpl. unfold ScalarWatch.observe. by rewrite Hsub, Hsrc, Hd. }
    set (st1 := with_subscription _ st).
    specialize (IH st1 _ eq_refl eq_refl).
    unfold ScalarWatch.run, ScalarWatch.messages in IH. rewrite IH.
    unfold st1, with_subscription. simpl. rewrite <-app_assoc. simpl.
    do 3 f_equal. rewrite last_cons. by destruct (last updates).
Qed.

Lemma item_delivered (vals : list (option T)) : ∀ st,
  item (foldl (λ st' i, setItem i st') st vals) =
  default (item st) (last vals).
Proof.
  induction vals as [|i vals IH]; intros st; [done|].
  simpl. rewrite IH. simpl. rewrite last_cons. by destruct (last vals).
Qed.

(** [X17] The item is the last value received: after a burst of messages
    and the end of the buffer window, the item is the [result] of the last
    message, be it [undefined]; without a message it is what it was. *)
Theorem item_is_last_update url st s datas updates :
  subscription st = Some s → source s = connected → buffer s = [] →
  decodes datas updates →
  item (run url st (messages datas ++ [buffer_due])) =
  default (item st) (last updates).
Proof.
  intros Hsub Hsrc Hbuf Hdec.
  rewrite scalar_run_app, (scalar_run_messages url datas updates st s) by done.
  simpl. unfold flush. simpl. rewrite item_delivered, Hbuf. done.
Qed.

(** *** The end of a single-item watch *)

Lemma scalar_step_dead url st ev :
  subscription st = None → listening st = false → step url st ev = st.
Proof.
  intros Hsub Hlis. destruct ev as [sig| | |hidden| |]; simpl.
  - induction (Adapter.react sig) as [|c calls IH]; [done|].
    simpl. unfold ScalarWatch.observe at 2. by rewrite Hsub.
  - by rewrite Hsub.
  - unfold flush. by rewrite Hsub.
  - by rewrite Hlis.
  - by rewrite Hlis.
  - destruct st. simpl in *. by subst.
Qed.

(** [X18] A timeout ends the watch without a trace: once the timer of a
    positive [timeoutAfter] has fired, the state is frozen; the item keeps
    its last value, no connection is opened again, and nothing tells the
    caller. *)
Theorem timeout_is_final url st evs :
  listening st = true → timer st = true →
  let ended := step url st timeout_due in
  run url ended evs = ended ∧
  item ended = item st ∧ subscription ended = None.
Proof.
  intros Hlis Htimer ended. subst ended. simpl. rewrite Hlis, Htimer. simpl.
  split; [|done].
  induction evs as [|ev evs IH]; [done|].
  cbn [ScalarWatch.run foldl]. by rewrite scalar_step_dead.
Qed.

Lemma scalar_deliver_frame (vals : list (option T)) : ∀ st,
  timer (foldl (λ st' i, setItem i st') st vals) = timer st ∧
  listening (foldl (λ st' i, setItem i st') st vals) = listening st.
Proof.
  induction vals as [|i vals IH]; intros st; [done|].
  simpl. by destruct (IH (setItem i st)) as [-> ->].
Qed.

Lemma scalar_step_timer url st ev : timer (step url st ev) = timer st.
Proof.
  destruct ev as [sig| | |hidden| |]; simpl.
  - generalize (Adapter.react sig). intros calls. revert st.
    induction calls as [|c calls IH]; intros st; [done|].
    simpl. rewrite IH. unfold ScalarWatch.observe.
    by repeat case_match.
  - by repeat case_match.
  - unfold flush. case_match; [|done].
    by destruct (scalar_deliver_frame (buffer l)
      (with_subscription
         (Some {| source := source l; acc := acc l; buffer := [] |}) st))
      as [-> _].
  - by repeat case_match.
  - by case_match.
  - done.
Qed.

(** [X19] Without a positive [timeoutAfter] (none, zero, negative) no
    timer is set: in every state the watch reaches, the expiry of a timer
    changes nothing. *)
Theorem no_timeout_without_positive url timeoutAfter hidden evs :
  match timeoutAfter with Some t => t ≤ 0 | None => True end →
  let st := run url (mount url true timeoutAfter hidden) evs in
  step url st timeout_due = st.
Proof.
  intros Ht st.
  assert (timer st = false) as Htimer.
  { subst st.
    assert (timer (mount (V := V) url true timeoutAfter hidden) = false)
      as Hstart.
    { unfold mount. simpl. destruct timeoutAfter as [t|], hidden;
        simpl; try done; by apply bool_decide_eq_false_2; lia. }
    revert Hstart. generalize (mount (V := V) url true timeoutAfter hidden).
    induction evs as [|ev evs IH]; intros st0 Hst0; [done|].
    simpl. apply IH. by rewrite scalar_step_timer. }
  simpl. rewrite Htimer. by destruct (listening st).
Qed.

Lemma step_open url st ev :
  listening st = true → keeps_open ev → listening (step url st ev) = true.
Proof.
  intros Hlis Hev. destruct ev as [sig| | |hidden| |]; simpl; try done.
  - generalize (Adapter.react sig). intros calls. revert st Hlis.
    induction calls as [|c calls IH]; intros st Hlis; [done|].
    simpl. apply IH. unfold ScalarWatch.observe.
    by repeat case_match.
  - by repeat case_match.
  - unfold flush. case_match; [|done].
    by destruct (scalar_deliver_frame (buffer l)
      (with_subscription
         (Some {| source := source l; acc := acc l; buffer := [] |}) st))
      as [_ ->].
  - by repeat case_match.
Qed.

(** [X20] Nothing but a timeout or the cleanup ends a single-item watch:
    it stays subscribed through every error event, closed connection,
    payload that cannot be parsed or has no [result], retry and visibility
    change. *)
Theorem scalar_watch_stays_open url timeoutAfter hidden evs :
  Forall keeps_open evs →
  listening (run url (mount url true timeoutAfter hidden) evs) = true.
Proof.
  intros Hall.
  assert (listening (mount (V := V) url true timeoutAfter hidden) = true)
    as Hstart by (unfold mount; simpl; by destruct hidden).
  revert Hstart. generalize (mount (V := V) url true timeoutAfter hidden).
  induction Hall as [|ev evs Hev Hall IH]; intros st Hst; [done|].
  simpl. apply IH. by apply step_open.
Qed.

End scalar_watch_more.
End ScalarWatchMore.

(** ** The menu *)

Module MenuFacts.
Import Menu.

Lemma listeners_step st ev :
  (1 ≤ listeners st → 1 ≤ listeners (step st ev))%nat.
Proof.
  intros Hone. destruct ev as [|t]; simpl; [lia|].
  assert (∀ n st0, listeners (Nat.iter n (listener t) st0) = listeners st0)
    as ->; [|by destruct t].
  induction n as [|n IH]; intros st0; [done|]. simpl.
  destruct t; simpl; by rewrite ?IH.
Qed.

Lemma listeners_ignore_trigger n st :
  Nat.iter n (listener on_trigger) st = st.
Proof. induction n as [|n IH]; [done|]. simpl. exact IH. Qed.

Lemma click_visible st t :
  (1 ≤ listeners st)%nat →
  menuVisible (step st (click t)) =
  match t with on_trigger => true | _ => false end.
Proof.
  intros Hone. unfold step. destruct t.
  - by rewrite listeners_ignore_trigger.
  - destruct (listeners st) as [|n]; [lia|done].
  - destruct (listeners st) as [|n]; [lia|done].
Qed.

(** [X21] The menu is open exactly when the last click landed on the
    element that opens it: a click on an entry of the menu or anywhere
    else in the document closes it, and renders in between change
    nothing. *)
Theorem menu_follows_last_click (evs : list event) :
  menuVisible (run mounted evs) =
  match last_click evs with
  | Some on_trigger => true
  | _ => false
  end.
Proof.
  assert (∀ st, (1 ≤ listeners st)%nat →
    menuVisible (run st evs) =
    match last_click evs with
    | Some on_trigger => true
    | Some _ => false
    | None => menuVisible st
    end) as Hgen.
  { induction evs as [|ev evs IH]; intros st Hone; [done|].
    cbn [run foldl last_click]. fold (run (step st ev) evs).
    rewrite (IH _ (listeners_step st ev Hone)).
    destruct (last_click evs) as [t|]; [done|].
    destruct ev as [|t]; [done|]. rewrite (click_visible st t Hone).
    by destruct t. }
  rewrite (Hgen mounted) by (simpl; lia). by destruct (last_click evs) as [[]|].
Qed.

End MenuFacts.

(** ** The further properties at the caller of the examples *)

Module MoreScenarios.
Import Decode Caller.

(** A collection with two keys. *)
Lemma two_keys :
  Reducer.unique_keys item_key [record "1" "a"; record "2" "b"].
Proof.
  apply (ReducerFacts.unique_keys_NoDup item_key).
  apply (bool_decide_unpack _). vm_compute. exact I.
Qed.

Lemma added_is_other id name :
  type_of (Added id name) ≠ Some "Deleted" ∧
  type_of (Added id name) ≠ Some "Updated".
Proof. split; vm_compute; discriminate. Qed.

Lemma deleted_removes_first_match_witness :
  type_of (Deleted "2") = Some "Deleted" ∧
  ∃ front old back,
    [record "1" "a"; record "2" "b"] = front ++ old :: back ∧
    reducer [record "1" "a"; record "2" "b"] (Deleted "2") = front ++ back.
Proof.
  split; [reflexivity|].
  destruct (ReducerMore.deleted_removes_first_match type_of findItem getItem
              (Deleted "2") [record "1" "a"; record "2" "b"] eq_refl)
    as (front & old & back & Hsplit & _ & _ & Hstep & _).
  - exists (record "2" "b"). split; [right; left|vm_compute; reflexivity].
  - exists front, old, back. split; [exact Hsplit|exact Hstep].
Defined.

Lemma deleted_key_is_gone_witness :
  Reducer.absent findItem (Deleted "1")
    (reducer [record "1" "a"; record "2" "b"] (Deleted "1")).
Proof.
  apply (ReducerMore.deleted_key_is_gone type_of findItem getItem
           item_key change_key CallerFacts.findItem_key
           (Deleted "1") _ two_keys).
  reflexivity.
Defined.

Lemma change_is_idempotent_witness :
  reducer (reducer [record "1" "a"; record "2" "b"] (Updated "1" "c"))
    (Updated "1" "c") =
  reducer [record "1" "a"; record "2" "b"] (Updated "1" "c").
Proof.
  apply (ReducerMore.change_is_idempotent type_of findItem getItem
           item_key change_key CallerFacts.findItem_key
           CallerFacts.getItem_key CallerFacts.spread_key
           (Updated "1" "c") _ two_keys).
Defined.

Lemma other_keys_untouched_witness :
  Some "2" ≠ change_key (Updated "1" "c") ∧
  Reducer.with_key item_key (Some "2")
    (reducer [record "1" "a"; record "2" "b"] (Updated "1" "c")) =
  Reducer.with_key item_key (Some "2") [record "1" "a"; record "2" "b"].
Proof.
  assert (Some "2" ≠ change_key (Updated "1" "c")) as Hk
    by (vm_compute; discriminate).
  split; [exact Hk|].
  apply (ReducerMore.other_keys_untouched type_of findItem getItem
           item_key change_key CallerFacts.findItem_key
           CallerFacts.getItem_key CallerFacts.spread_key
           (Updated "1" "c") _ (Some "2") Hk).
Defined.

Lemma upsert_then_lookup_witness :
  Reducer.matching findItem (Added "2" "z")
    (reducer [record "1" "a"; record "2" "b"] (Added "2" "z")) =
  [getItem (Added "2" "z")].
Proof.
  destruct (added_is_other "2" "z") as [Hd Hu].
  apply (ReducerMore.upsert_then_lookup type_of findItem getItem
           item_key change_key CallerFacts.findItem_key
           CallerFacts.getItem_key (Added "2" "z") _ two_keys Hd Hu).
Defined.

Lemma add_then_delete_witness :
  reducer (reducer [record "1" "a"] (Added "2" "b")) (Deleted "2") =
  [record "1" "a"].
Proof.
  destruct (added_is_other "2" "b") as [Hd Hu].
  apply (ReducerMore.add_then_delete type_of findItem getItem
           item_key change_key CallerFacts.findItem_key
           CallerFacts.getItem_key (Added "2" "b") (Deleted "2")
           [record "1" "a"]); [|exact Hd|exact Hu|reflexivity|reflexivity].
  intros i Hi. apply list_elem_of_singleton in Hi. subst i.
  vm_compute. reflexivity.
Defined.

(** A run with every kind of transport failure. *)
Lemma transport_failures_keep_error_down_witness :
  ListWatch.error
    (list_run watch_without_init
       [message gateway_text;
        ListWatch.retry_due;
        ListWatch.transport (Adapter.on_error ());
        ListWatch.transport (Adapter.on_interval 2);
        ListWatch.retry_due;
        message (added_text "1" "a");
        ListWatch.buffer_due]) = false.
Proof.
  apply (ListWatchMore.transport_failures_keep_error_down (Ev := unit)
           type_of findItem getItem decode [] None false).
  repeat constructor; vm_compute; discriminate.
Defined.

(** The watch failed on a document without [result]; then the effect runs
    again and a change arrives. *)
Lemma flags_survive_rerun_witness :
  ListWatch.error
    (list_run
       (ListWatch.rerun (Ev := unit) type_of findItem getItem decode
          (list_step watch_without_init (message empty_text)) None false)
       [message (added_text "1" "a"); ListWatch.buffer_due]) = true.
Proof.
  destruct (ListWatchMore.flags_survive_rerun (Ev := unit)
              type_of findItem getItem decode
              (list_step watch_without_init (message empty_text)) None false
              [message (added_text "1" "a"); ListWatch.buffer_due])
    as [Herror _].
  apply Herror. reflexivity.
Defined.

(** A watch that is mounted on a hidden page. *)
Lemma hidden_watch_is_inert_witness :
  let st :=
    list_run (ListWatch.mount [] None true)
      [message (added_text "1" "a"); ListWatch.retry_due;
       ListWatch.buffer_due; ListWatch.visibilitychange true] in
  ListWatch.opened st = 0%nat ∧ ListWatch.renders st = [].
Proof.
  destruct (ListWatchMore.hidden_watch_is_inert (Ev := unit)
              type_of findItem getItem decode (ListWatch.mount [] None true)
              [message (added_text "1" "a"); ListWatch.retry_due;
               ListWatch.buffer_due; ListWatch.visibilitychange true]
              eq_refl)
    as (_ & Hopened & Hrenders & _).
  - repeat constructor.
  - split; [exact Hopened|exact Hrenders].
Defined.

Lemma renders_only_when_buffer_closes_witness :
  ListWatch.renders
    (list_run watch_without_init
       [message (added_text "1" "a"); message (added_text "2" "b");
        ListWatch.visibilitychange true]) = [].
Proof.
  destruct (ListWatchMore.renders_only_when_buffer_closes (Ev := unit)
              type_of findItem getItem decode watch_without_init
              [message (added_text "1" "a"); message (added_text "2" "b");
               ListWatch.visibilitychange true])
    as [Hrenders _].
  - repeat constructor.
  - exact Hrenders.
Defined.

Lemma reconnect_resumes_fold_witness :
  let st :=
    list_run watch_without_init
      (ListWatch.messages [added_text "1" "a"] ++
       [ListWatch.transport (Adapter.on_interval 2); ListWatch.retry_due] ++
       ListWatch.messages [added_text "1" "a"; added_text "2" "b"]) in
  ListWatch.fold_state st = Some [record "2" "b"; record "1" "a"] ∧
  ListWatch.opened st = 2%nat.
Proof.
  destruct (ListWatchMore.reconnect_resumes_fold (Ev := unit)
              type_of findItem getItem decode watch_without_init started
              [added_text "1" "a"] [added_text "1" "a"; added_text "2" "b"]
              [Added "1" "a"] [Added "1" "a"; Added "2" "b"]
              eq_refl eq_refl (Nat.lt_0_succ 0)
              CallerFacts.decodes_one CallerFacts.decodes_two)
    as (Hfold & Hopened & _).
  split; [exact Hfold|exact Hopened].
Defined.

Lemma hide_drops_buffer_witness :
  let st :=
    list_run watch_without_init
      (ListWatch.messages [added_text "1" "a"; added_text "2" "b"] ++
       [ListWatch.visibilitychange true; ListWatch.visibilitychange false;
        ListWatch.buffer_due]) in
  ListWatch.renders st = [] ∧
  ListWatch.fold_state st = Some [record "2" "b"; record "1" "a"].
Proof.
  destruct (ListWatchMore.hide_drops_buffer (Ev := unit)
              type_of findItem getItem decode watch_without_init started
              [added_text "1" "a"; added_text "2" "b"]
              [Added "1" "a"; Added "2" "b"]
              eq_refl eq_refl eq_refl eq_refl (Nat.lt_0_succ 0)
              CallerFacts.decodes_two)
    as (Hrenders & _ & Hfold).
  split; [exact Hrenders|exact Hfold].
Defined.

Lemma failure_comes_from_closed_poll_witness :
  Adapter.on_interval (Adapter.code Adapter.CLOSED) ∈
    [Adapter.on_message "x"; Adapter.on_error (); Adapter.on_interval 2].
Proof.
  destruct (AdapterMore.failure_comes_from_closed_poll
              [Adapter.on_message "x"; Adapter.on_error ();
               Adapter.on_interval 2]
              (Adapter.of_text "connection got closed unexpectedly"))
    as [Hin _].
  - simpl. right. left.
  - exact Hin.
Defined.

(** A change, then a document without [result]. *)
Lemma item_is_last_update_witness :
  ScalarWatch.item
    (scalar_run "/watch" (ScalarWatch.mount "/watch" true None false)
       (ScalarWatch.messages [added_text "1" "a"; empty_text] ++
        [ScalarWatch.buffer_due])) = None.
Proof.
  apply (ScalarWatchMore.item_is_last_update (Ev := unit) scalar_decode
           "/watch" (ScalarWatch.mount "/watch" true None false)
           {| ScalarWatch.source := ScalarWatch.connected;
              ScalarWatch.acc := Some ∅; ScalarWatch.buffer := [] |}
           [added_text "1" "a"; empty_text] [Some (Added "1" "a"); None]
           eq_refl eq_refl eq_refl).
  repeat constructor.
Defined.

Lemma timeout_is_final_witness :
  let ended :=
    ScalarWatch.step (Ev := unit) scalar_decode "/watch"
      (ScalarWatch.mount "/watch" true (Some 1000) false)
      ScalarWatch.timeout_due in
  scalar_run "/watch" ended
    [ScalarWatch.visibilitychange false;
     ScalarWatch.transport (Adapter.on_message (added_text "1" "a"));
     ScalarWatch.buffer_due] = ended.
Proof.
  destruct (ScalarWatchMore.timeout_is_final (Ev := unit) scalar_decode
              "/watch" (ScalarWatch.mount "/watch" true (Some 1000) false)
              [ScalarWatch.visibilitychange false;
               ScalarWatch.transport
                 (Adapter.on_message (added_text "1" "a"));
               ScalarWatch.buffer_due] eq_refl eq_refl)
    as [Hfrozen _].
  exact Hfrozen.
Defined.

Lemma no_timeout_without_positive_witness :
  let st :=
    scalar_run "/watch" (ScalarWatch.mount "/watch" true (Some 0) false)
      [ScalarWatch.transport (Adapter.on_message (added_text "1" "a"))] in
  ScalarWatch.step (Ev := unit) scalar_decode "/watch" st
    ScalarWatch.timeout_due = st.
Proof.
  apply (ScalarWatchMore.no_timeout_without_positive (Ev := unit)
           scalar_decode "/watch" (Some 0) false
           [ScalarWatch.transport (Adapter.on_message (added_text "1" "a"))]).
  simpl. lia.
Defined.

Lemma scalar_watch_stays_open_witness :
  ScalarWatch.listening
    (scalar_run "/watch" (ScalarWatch.mount "/watch" true (Some 1000) false)
       [ScalarWatch.transport (Adapter.on_message gateway_text);
        ScalarWatch.transport (Adapter.on_error ());
        ScalarWatch.retry_due;
        ScalarWatch.transport (Adapter.on_message empty_text);
        ScalarWatch.visibilitychange true]) = true.
Proof.
  apply (ScalarWatchMore.scalar_watch_stays_open (Ev := unit) scalar_decode
           "/watch" (Some 1000) false).
  repeat constructor.
Defined.

(** With a caller whose [getItem] gives the entry another key than the
    one [findItem] compares, one step breaks the invariant: the
    collection starts with one entry per key, and after a change that
    moves key 1 to key 2 two entries match a change of key 2. *)
Lemma moved_key_is_duplicated :
  let init := [record "1" "a"; record "2" "b"] in
  let after :=
    Reducer.fold_events type_of findItem getItem_to init
      [Moved "1" "2" "a"] in
  Reducer.unique_keys item_key init ∧
  Reducer.at_most_one_match findItem init ∧
  after = [record "2" "a"; record "2" "b"] ∧
  ¬ Reducer.unique_keys item_key after ∧
  ¬ Reducer.at_most_one_match findItem after.
Proof.
  split_and!.
  - exact two_keys.
  - apply (ReducerFacts.unique_keys_one_match findItem item_key change_key
             CallerFacts.findItem_key), two_keys.
  - vm_compute. reflexivity.
  - intros Hone. specialize (Hone (Some "2")). vm_compute in Hone. lia.
  - intros Hone. specialize (Hone (Deleted "2")). vm_compute in Hone. lia.
Qed.

(** The effect is cleaned up before its timer fires, runs again, and the
    new timer fires. *)
Example loading_goes_down_after_rerun :
  let early := list_run watch_without_init [ListWatch.cleanup] in
  ListWatch.loading (list_run early [ListWatch.loader_due]) = true ∧
  ListWatch.loading
    (list_run
       (ListWatch.rerun (Ev := unit) type_of findItem getItem decode
          early None false)
       [ListWatch.loader_due]) = false.
Proof. vm_compute. done. Qed.

End MoreScenarios.
